(** * msa::OrderedMap — an insertion-ordered map (ofxMSAOrderedMap.h)

    A shallow embedding of the class template [msa::OrderedMap<keyType, T>]
    and proofs about its public operations.

    - [std::map<keyType, pair<T, int>>] is a [gmap keyType (T * Z)];
    - [std::vector<keyType>] is a [list keyType];
    - member functions are computations in a state monad over the two
      fields whose outcome is a returned value, a thrown C++ exception, or
      undefined behaviour; the state reached when an exception leaves a
      member function is kept, so partial mutation is visible;
    - [int] is [Z]; the narrowing conversions [size_t -> int] of the source
      are written out with [to_int]. *)

From stdpp Require Import gmap strings list fin_maps.
From Stdlib Require Import ZArith Lia.

(** ** C++ scalars and exceptions *)

Definition INT_MAX : Z := 2147483647.

(** Conversion of a [size_t] to [int]: reduction modulo 2^32 into the signed
    range. *)
Definition to_int (z : Z) : Z := ((z + 2 ^ 31) `mod` 2 ^ 32 - 2 ^ 31)%Z.

(** The exceptions of <stdexcept> the header throws, with their [what()]
    message; [out_of_range] is raised by [map::at] and [vector::at]. *)
Inductive exception : Type :=
  | invalid_argument (what : string)
  | runtime_error (what : string)
  | out_of_range.

Inductive outcome (A : Type) : Type :=
  | Ok (a : A)
  | Throw (e : exception)
  | Undefined.
Arguments Ok {A} a.
Arguments Throw {A} e.
Arguments Undefined {A}.

(** The messages, as the source builds them. *)
Definition index_doesnt_exist (errorMessage : string) : exception :=
  invalid_argument (errorMessage +:+ " - index doesn't exist").
Definition key_doesnt_exist (errorMessage : string) : exception :=
  invalid_argument (errorMessage +:+ " - key doesn't exist").
Definition key_already_exists : exception :=
  invalid_argument "msa::OrderedMap::push_back(keyType, T&) - key already exists".
Definition size_mismatch : exception :=
  runtime_error "msa::OrderedMap::size() - map size doesn't equal vector size".

Section OrderedMap.
Context {keyType : Type} `{Countable keyType}.
Context {T : Type}.
(** [T()], the value-initialised [T] that [std::map::operator[]] stores
    under a key it does not hold yet. *)
Variable T_default : T.

(** The two private fields. *)
Record OrderedMap : Type := mkOrderedMap {
  _map : gmap keyType (T * Z);
  _vector : list keyType
}.

(** A default-constructed container. *)
Definition empty_map : OrderedMap := {| _map := ∅; _vector := [] |}.

(** ** The monad of member functions *)

Definition M (A : Type) : Type := OrderedMap → outcome A * OrderedMap.

#[local] Instance M_ret : MRet M := λ A a s, (Ok a, s).
#[local] Instance M_bind : MBind M := λ A B k c s,
  match c s with
  | (Ok a, s') => k a s'
  | (Throw e, s') => (Throw e, s')
  | (Undefined, s') => (Undefined, s')
  end.

Definition throw {A} (e : exception) : M A := λ s, (Throw e, s).
Definition undefined {A} : M A := λ s, (Undefined, s).
Definition get_map : M (gmap keyType (T * Z)) := λ s, (Ok (_map s), s).
Definition get_vector : M (list keyType) := λ s, (Ok (_vector s), s).
Definition modify_map (f : gmap keyType (T * Z) → gmap keyType (T * Z)) : M () :=
  λ s, (Ok (), {| _map := f (_map s); _vector := _vector s |}).
Definition modify_vector (f : list keyType → list keyType) : M () :=
  λ s, (Ok (), {| _map := _map s; _vector := f (_vector s) |}).

(** ** Accesses to the standard containers *)

(** Is [index], converted to [size_type], a position of [v]? *)
Definition in_range (index : Z) (v : list keyType) : bool :=
  bool_decide (0 ≤ index)%Z && bool_decide (index < Z.of_nat (length v))%Z.

(** [_vector[index]]: unchecked, undefined outside the vector. *)
Definition vector_subscript (index : Z) : M keyType :=
  v ← get_vector;
  if in_range index v then
    match v !! Z.to_nat index with
    | Some key => mret key
    | None => undefined
    end
  else undefined.

(** [_vector.at(index) = key]: checked, throws [out_of_range]. *)
Definition vector_at_assign (index : Z) (key : keyType) : M () :=
  v ← get_vector;
  if in_range index v then modify_vector (<[Z.to_nat index := key]>)
  else throw out_of_range.

(** [_vector.erase(_vector.begin() + index)]. *)
Definition vector_erase (index : Z) : M () :=
  v ← get_vector;
  if in_range index v then modify_vector (delete (Z.to_nat index))
  else undefined.

(** [_map[key]] read as a value: inserts [(T(), 0)] when [key] is absent. *)
Definition map_subscript (key : keyType) : M (T * Z) :=
  mp ← get_map;
  match mp !! key with
  | Some p => mret p
  | None => _ ← modify_map (<[key := (T_default, 0%Z)]>); mret (T_default, 0%Z)
  end.

(** [_map.at(key)]: throws [out_of_range] when [key] is absent. *)
Definition map_at (key : keyType) : M (T * Z) :=
  mp ← get_map;
  match mp !! key with
  | Some p => mret p
  | None => throw out_of_range
  end.

(** ** Member functions *)

Definition clear : M () :=
  _ ← modify_vector (λ _, []);
  modify_map (λ _, ∅).

Definition size : M Z :=
  mp ← get_map;
  v ← get_vector;
  if bool_decide (base.size mp ≠ length v) then throw size_mismatch
  else mret (to_int (Z.of_nat (length v))).

Definition exists_ (key : keyType) : M bool :=
  mp ← get_map;
  mret (bool_decide (is_Some (mp !! key))).

Definition validateIndex (index : Z) (errorMessage : string) : M () :=
  v ← get_vector;
  if bool_decide (index < 0)%Z || bool_decide (Z.of_nat (length v) ≤ index)%Z
  then throw (index_doesnt_exist errorMessage)
  else mret ().

Definition validateKey (key : keyType) (errorMessage : string) : M () :=
  found ← exists_ key;
  if negb found then throw (key_doesnt_exist errorMessage)
  else mret ().

(** [at(const keyType&)] and [operator[](const keyType&)]; the returned
    reference is modelled by the value it refers to. *)
Definition at_key (key : keyType) : M T :=
  _ ← validateKey key "msa::OrderedMap::at(keyType)";
  p ← map_at key;
  mret p.1.

(** [at(int)] and [operator[](int)]. *)
Definition at_index (index : Z) : M T :=
  _ ← validateIndex index "msa::OrderedMap::at(int)";
  key ← vector_subscript index;
  at_key key.

Definition push_back (key : keyType) (t : T) : M T :=
  found ← exists_ key;
  if (found : bool) then throw key_already_exists
  else
    v ← get_vector;
    _ ← modify_map (<[key := (t, to_int (Z.of_nat (length v)))]>);
    _ ← modify_vector (λ v, v ++ [key]);
    _ ← size;
    at_key key.

Definition keyFor (index : Z) : M keyType :=
  _ ← validateIndex index "msa::OrderedMap::keyFor(int)";
  vector_subscript index.

Definition indexFor (key : keyType) : M Z :=
  _ ← validateKey key "msa::OrderedMap::indexFor(keyType)";
  p ← map_at key;
  mret p.2.

(** [changeKey(const keyType&, const keyType&)]. *)
Definition changeKey (oldKey newKey : keyType) : M () :=
  _ ← validateKey oldKey "msa::OrderedMap::changeKey(keyType)";
  t ← map_subscript oldKey;
  _ ← modify_map (delete oldKey);
  _ ← modify_map (<[newKey := t]>);
  vector_at_assign t.2 newKey.

(** [changeKey(int, const keyType&)]. *)
Definition changeKey_index (index : Z) (newKey : keyType) : M () :=
  _ ← validateIndex index "msa::OrderedMap::changeKey(int)";
  oldKey ← keyFor index;
  changeKey oldKey newKey.

(** The body of the loop of [updateMapIndices] at counter [i]:
    [_map[key].second = i], where [_map[key]] inserts [(T(), 0)] first
    when [key] is absent. *)
Definition set_second (key : keyType) (i : Z) (mp : gmap keyType (T * Z))
  : gmap keyType (T * Z) :=
  match mp !! key with
  | Some p => <[key := (p.1, i)]> mp
  | None => <[key := (T_default, i)]> mp
  end.

(** The loop [for(int i = ...; i < _vector.size(); i++)] from counter [i]
    on, [keys] being the keys at the positions from [i] to the end; the
    loop does not change [_vector]. The counter runs below
    [_vector.size()]; incrementing it past [INT_MAX] is undefined in the
    source and outside this model. *)
Fixpoint updateMapIndices_from (i : Z) (keys : list keyType)
    (mp : gmap keyType (T * Z)) : gmap keyType (T * Z) :=
  match keys with
  | [] => mp
  | key :: keys' => updateMapIndices_from (i + 1) keys' (set_second key i mp)
  end.

Definition updateMapIndices : M () :=
  v ← get_vector;
  modify_map (updateMapIndices_from 0 v).

Definition fastErase (index : Z) (key : keyType) : M () :=
  _ ← modify_map (delete key);
  _ ← vector_erase index;
  updateMapIndices.

(** [erase(int)]. *)
Definition erase_index (index : Z) : M () :=
  _ ← validateIndex index "msa::OrderedMap::erase(int)";
  key ← keyFor index;
  _ ← fastErase index key;
  _ ← size;
  mret ().

(** [erase(const keyType&)]. *)
Definition erase_key (key : keyType) : M () :=
  _ ← validateKey key "msa::OrderedMap::erase(keyType)";
  index ← indexFor key;
  _ ← fastErase index key;
  _ ← size;
  mret ().

(** Successive calls of [push_back], one for each key and value of [kts]. *)
Fixpoint push_back_all (kts : list (keyType * T)) : M () :=
  match kts with
  | [] => mret ()
  | kt :: kts' => _ ← push_back kt.1 kt.2; push_back_all kts'
  end.

(** ** The invariants of the data model

    [_map] is the key mapping ([byKey]) and [_vector] the order sequence
    ([order]); the [int] of an entry is its recorded position. *)
Record invariants (m : OrderedMap) : Prop := {
  I1 : length (_vector m) = base.size (_map m);
  I2 : ∀ (i : nat) key, _vector m !! i = Some key →
         ∃ t, _map m !! key = Some (t, Z.of_nat i);
  I3 : ∀ key t p, _map m !! key = Some (t, p) →
         (0 ≤ p)%Z ∧ _vector m !! Z.to_nat p = Some key;
  I4 : NoDup (_vector m) ∧
       ∀ key, key ∈ _vector m ↔ is_Some (_map m !! key)
}.

(** An executable check of I1-I4. *)
Definition check_invariants (m : OrderedMap) : bool :=
  bool_decide (length (_vector m) = base.size (_map m))
  && bool_decide (Forall (λ ik : nat * keyType,
         snd <$> _map m !! ik.2 = Some (Z.of_nat ik.1)) (imap pair (_vector m)))
  && bool_decide (map_Forall (λ key (p : T * Z),
         (0 ≤ p.2)%Z ∧ _vector m !! Z.to_nat p.2 = Some key) (_map m))
  && bool_decide (NoDup (_vector m))
  && bool_decide (Forall (λ key, is_Some (_map m !! key)) (_vector m))
  && bool_decide (map_Forall (λ key (_ : T * Z), key ∈ _vector m) (_map m)).

(** The container holds at most [INT_MAX] entries, so that its size and
    every position convert to [int] unchanged. *)
Definition fits_int (m : OrderedMap) : Prop :=
  (Z.of_nat (length (_vector m)) ≤ INT_MAX)%Z.

(** ** The states reached by the mutating member functions

    Closed forms of the state in which [push_back], [changeKey] and
    [fastErase] leave the container; the lemmas [push_back_fresh],
    [changeKey_present] and [fastErase_in_range] relate them to the code. *)
Definition pushed (key : keyType) (t : T) (m : OrderedMap) : OrderedMap :=
  {| _map := <[key := (t, to_int (Z.of_nat (length (_vector m))))]> (_map m);
     _vector := _vector m ++ [key] |}.

Definition renamed (oldKey newKey : keyType) (tp : T * Z) (m : OrderedMap)
  : OrderedMap :=
  {| _map := <[newKey := tp]> (delete oldKey (_map m));
     _vector := <[Z.to_nat tp.2 := newKey]> (_vector m) |}.

Definition erased (p : nat) (key : keyType) (m : OrderedMap) : OrderedMap :=
  {| _map := updateMapIndices_from 0 (delete p (_vector m)) (delete key (_map m));
     _vector := delete p (_vector m) |}.

(** ** Calls of the public interface

    The checked member functions; [fastErase], which the header marks
    ADVANCED and which runs without any validity check, is not among them. *)

Inductive call : Type :=
  | Size
  | PushBack (key : keyType) (t : T)
  | AtIndex (index : Z)
  | AtKey (key : keyType)
  | KeyFor (index : Z)
  | IndexFor (key : keyType)
  | Exists (key : keyType)
  | ChangeKeyIndex (index : Z) (newKey : keyType)
  | ChangeKey (oldKey newKey : keyType)
  | EraseIndex (index : Z)
  | EraseKey (key : keyType)
  | Clear.

(** How a call ended, whatever it returned. *)
Inductive status : Type :=
  | Returned
  | Thrown (e : exception)
  | UndefinedBehaviour.

Definition status_of {A} (r : outcome A * OrderedMap) : status * OrderedMap :=
  match r with
  | (Ok _, s) => (Returned, s)
  | (Throw e, s) => (Thrown e, s)
  | (Undefined, s) => (UndefinedBehaviour, s)
  end.

Definition run (c : call) (s : OrderedMap) : status * OrderedMap :=
  match c with
  | Size => status_of (size s)
  | PushBack key t => status_of (push_back key t s)
  | AtIndex index => status_of (at_index index s)
  | AtKey key => status_of (at_key key s)
  | KeyFor index => status_of (keyFor index s)
  | IndexFor key => status_of (indexFor key s)
  | Exists key => status_of (exists_ key s)
  | ChangeKeyIndex index newKey => status_of (changeKey_index index newKey s)
  | ChangeKey oldKey newKey => status_of (changeKey oldKey newKey s)
  | EraseIndex index => status_of (erase_index index s)
  | EraseKey key => status_of (erase_key key s)
  | Clear => status_of (clear s)
  end.

(** The state after a sequence of calls, each run whatever the previous
    one did (a caller that catches the exceptions). *)
Definition run_all (cs : list call) (s : OrderedMap) : OrderedMap :=
  foldl (λ s c, (run c s).2) s cs.




(** The call renames an entry to another key that is already held. *)
Definition renames_onto_held (c : call) (s : OrderedMap) : Prop :=
  match c with
  | ChangeKey oldKey newKey =>
      oldKey ≠ newKey ∧ is_Some (_map s !! oldKey) ∧ is_Some (_map s !! newKey)
  | ChangeKeyIndex index newKey =>
      ∃ oldKey, in_range index (_vector s) = true ∧
                _vector s !! Z.to_nat index = Some oldKey ∧
                oldKey ≠ newKey ∧ is_Some (_map s !! newKey)
  | _ => False
  end.

End OrderedMap.

Arguments OrderedMap keyType {_ _} T.
Arguments M keyType {_ _} T A.
Arguments call keyType T : clear implicits.

(** ** The container of the example application

    [tester()] inserts four people; the stored value is reduced to the age. *)
Definition people : OrderedMap string Z :=
  (push_back_all [("memo", 37%Z); ("jane", 27%Z); ("pearl", 2%Z); ("bruce", 3%Z)]
     empty_map).2.

(** [people] after [changeKey("memo", "jane")], a rename onto a key that is
    already held. *)
Definition people_clash : OrderedMap string Z :=
  (changeKey 0%Z "memo" "jane" people).2.

(** [people] after [fastErase(3, "blufo")], a misuse: "blufo" is not the
    key at position 3. "bruce" is gone from [_vector] and still in [_map],
    with the position 3. *)
Definition people_stale : OrderedMap string Z :=
  (fastErase 0%Z 3%Z "blufo" people).2.



(** * Properties *)

Section OrderedMap_facts.
Context {keyType : Type} `{Countable keyType}.
Context {T : Type}.
Variable T_default : T.

Implicit Types (m s : OrderedMap keyType T) (key : keyType) (t : T)
  (index p : Z) (v : list keyType) (mp : gmap keyType (T * Z)).

(** Unfolding of the monadic plumbing. *)
Ltac unfold_M :=
  unfold mbind, M_bind, mret, M_ret, throw, undefined, get_map, get_vector,
    modify_map, modify_vector in *.


(** ** Conversions *)

Lemma to_int_id (z : Z) : (0 ≤ z ≤ INT_MAX)%Z → to_int z = z.
Proof.
  unfold to_int, INT_MAX. intros Hz.
  rewrite Z.mod_small; lia.
Qed.

Lemma in_range_true index v :
  in_range index v = true ↔ (0 ≤ index < Z.of_nat (length v))%Z.
Proof.
  unfold in_range. rewrite andb_true_iff, !bool_decide_eq_true. lia.
Qed.

Lemma in_range_false index v :
  in_range index v = false ↔ ¬ (0 ≤ index < Z.of_nat (length v))%Z.
Proof. rewrite <- in_range_true. destruct (in_range index v); naive_solver. Qed.

Lemma in_range_of_nat (i : nat) v key :
  v !! i = Some key → in_range (Z.of_nat i) v = true.
Proof.
  intros Hi%lookup_lt_Some. apply in_range_true. lia.
Qed.

(** ** The validators and the probes, in closed form *)

Lemma exists_spec key s :
  exists_ key s = (Ok (bool_decide (is_Some (_map s !! key))), s).
Proof. reflexivity. Qed.

Lemma exists_true key s :
  exists_ key s = (Ok true, s) ↔ is_Some (_map s !! key).
Proof.
  rewrite exists_spec. split.
  - intros [= Hb]. by apply bool_decide_eq_true in Hb.
  - intros Hs. by rewrite bool_decide_eq_true_2.
Qed.

Lemma exists_false key s :
  exists_ key s = (Ok false, s) ↔ _map s !! key = None.
Proof.
  rewrite exists_spec. split.
  - intros [= Hb]. apply bool_decide_eq_false in Hb.
    by apply eq_None_not_Some.
  - intros Hn. rewrite bool_decide_eq_false_2; [done|].
    rewrite Hn. by intros [? ?].
Qed.

Lemma validateKey_present key msg s :
  is_Some (_map s !! key) → validateKey key msg s = (Ok (), s).
Proof.
  intros Hs. unfold validateKey, exists_. unfold_M.
  by rewrite bool_decide_eq_true_2.
Qed.

Lemma validateKey_absent key msg s :
  _map s !! key = None → validateKey key msg s = (Throw (key_doesnt_exist msg), s).
Proof.
  intros Hn. unfold validateKey, exists_. unfold_M.
  rewrite bool_decide_eq_false_2; [done|]. rewrite Hn. by intros [? ?].
Qed.

Lemma validateIndex_inside index msg s :
  in_range index (_vector s) = true → validateIndex index msg s = (Ok (), s).
Proof.
  intros Hr%in_range_true. unfold validateIndex. unfold_M.
  repeat case_bool_decide; simpl; first [done | lia].
Qed.

Lemma validateIndex_outside index msg s :
  ¬ (0 ≤ index < Z.of_nat (length (_vector s)))%Z →
  validateIndex index msg s = (Throw (index_doesnt_exist msg), s).
Proof.
  intros Hr. unfold validateIndex. unfold_M.
  repeat case_bool_decide; simpl; first [done | lia].
Qed.

Lemma size_consistent s :
  base.size (_map s) = length (_vector s) →
  size s = (Ok (to_int (Z.of_nat (length (_vector s)))), s).
Proof.
  intros Hs. unfold size. unfold_M. by case_bool_decide.
Qed.

Lemma size_inconsistent s :
  base.size (_map s) ≠ length (_vector s) →
  size s = (Throw size_mismatch, s).
Proof.
  intros Hs. unfold size. unfold_M. by case_bool_decide.
Qed.

Lemma at_key_present key t p s :
  _map s !! key = Some (t, p) → at_key key s = (Ok t, s).
Proof.
  intros Hk. unfold at_key. unfold_M.
  rewrite validateKey_present; [|by rewrite Hk].
  unfold map_at. unfold_M. by rewrite Hk.
Qed.

Lemma indexFor_present key t p s :
  _map s !! key = Some (t, p) → indexFor key s = (Ok p, s).
Proof.
  intros Hk. unfold indexFor. unfold_M.
  rewrite validateKey_present; [|by rewrite Hk].
  unfold map_at. unfold_M. by rewrite Hk.
Qed.

Lemma vector_subscript_of_nat (i : nat) key s :
  _vector s !! i = Some key → vector_subscript (Z.of_nat i) s = (Ok key, s).
Proof.
  intros Hi. unfold vector_subscript. unfold_M.
  rewrite (in_range_of_nat _ _ _ Hi), Nat2Z.id. by rewrite Hi.
Qed.

Lemma keyFor_of_nat (i : nat) key s :
  _vector s !! i = Some key → keyFor (Z.of_nat i) s = (Ok key, s).
Proof.
  intros Hi. unfold keyFor. unfold_M.
  rewrite validateIndex_inside; [|by eapply in_range_of_nat].
  by apply vector_subscript_of_nat.
Qed.

Lemma at_index_of_nat (i : nat) key t p s :
  _vector s !! i = Some key → _map s !! key = Some (t, p) →
  at_index (Z.of_nat i) s = (Ok t, s).
Proof.
  intros Hi Hk. unfold at_index. unfold_M.
  rewrite validateIndex_inside; [|by eapply in_range_of_nat].
  rewrite (vector_subscript_of_nat _ _ _ Hi).
  by eapply at_key_present.
Qed.

(** ** The loop of [updateMapIndices] *)

Lemma set_second_lookup key (i : Z) mp k :
  set_second T_default key i mp !! k =
  if decide (key = k) then Some (from_option fst T_default (mp !! key), i)
  else mp !! k.
Proof.
  unfold set_second. destruct (mp !! key) as [tp|] eqn:E;
    rewrite lookup_insert; by case_decide.
Qed.

Lemma updateMapIndices_from_notin (i : Z) keys mp k :
  k ∉ keys → updateMapIndices_from T_default i keys mp !! k = mp !! k.
Proof.
  revert i mp. induction keys as [|a keys IH]; intros i mp Hk; [done|].
  apply not_elem_of_cons in Hk as [Hne Hk]. simpl.
  rewrite IH by done. rewrite set_second_lookup. by case_decide.
Qed.

Lemma updateMapIndices_from_in (i : Z) keys mp (j : nat) k :
  NoDup keys → keys !! j = Some k →
  updateMapIndices_from T_default i keys mp !! k =
  Some (from_option fst T_default (mp !! k), (i + Z.of_nat j)%Z).
Proof.
  revert i mp j. induction keys as [|a keys IH]; intros i mp j Hnd Hj; [done|].
  apply NoDup_cons in Hnd as [Ha Hnd]. destruct j as [|j]; simpl in *.
  - injection Hj as ->. rewrite updateMapIndices_from_notin by done.
    rewrite set_second_lookup, decide_True by done.
    by rewrite Z.add_0_r.
  - assert (a ≠ k) as Hne.
    { intros ->. apply Ha. by eapply list_elem_of_lookup_2. }
    rewrite (IH _ _ j) by done.
    rewrite set_second_lookup, decide_False by done.
    do 2 f_equal. lia.
Qed.

Lemma updateMapIndices_from_dom (i : Z) keys mp :
  dom (updateMapIndices_from T_default i keys mp) = dom mp ∪ list_to_set keys.
Proof.
  revert i mp. induction keys as [|a keys IH]; intros i mp; simpl.
  - set_solver.
  - rewrite IH. unfold set_second.
    destruct (mp !! a); rewrite dom_insert_L; set_solver.
Qed.

(** ** Consequences of the invariants *)

Lemma I3_nat s k t q :
  invariants s → _map s !! k = Some (t, q) →
  ∃ j : nat, q = Z.of_nat j ∧ _vector s !! j = Some k.
Proof.
  intros Hinv Hk. destruct (I3 _ Hinv _ _ _ Hk) as [Hq Hv].
  exists (Z.to_nat q). split; [lia|done].
Qed.

Lemma NoDup_delete_notin v (p : nat) k :
  NoDup v → v !! p = Some k → k ∉ delete p v.
Proof.
  intros Hnd Hp [j Hj]%list_elem_of_lookup_1.
  rewrite list_lookup_delete in Hj.
  pose proof (NoDup_lookup _ _ _ _ Hnd Hp Hj) as Heq.
  case_decide; lia.
Qed.

Lemma NoDup_delete v (p : nat) : NoDup v → NoDup (delete p v).
Proof. intros Hnd. eapply sublist_NoDup; [done|apply sublist_delete]. Qed.

Lemma elem_of_delete_other v (p : nat) k k' :
  v !! p = Some k → k' ≠ k → k' ∈ v → k' ∈ delete p v.
Proof.
  intros Hp Hne [j Hj]%list_elem_of_lookup_1.
  assert (j ≠ p) by (intros ->; congruence).
  destruct (decide (j < p)).
  - apply (list_elem_of_lookup_2 _ j). by rewrite list_lookup_delete_lt.
  - apply (list_elem_of_lookup_2 _ (j - 1)).
    rewrite list_lookup_delete_ge by lia.
    by replace (S (j - 1)) with j by lia.
Qed.

(** ** [fastErase] on a live entry *)

Lemma fastErase_in_range index key s :
  in_range index (_vector s) = true →
  fastErase T_default index key s = (Ok (), erased T_default (Z.to_nat index) key s).
Proof.
  intros Hr. unfold fastErase, vector_erase, updateMapIndices, erased.
  unfold_M. simpl. by rewrite Hr.
Qed.

Lemma erased_lookup_key s (p : nat) key :
  invariants s → _vector s !! p = Some key →
  _map (erased T_default p key s) !! key = None.
Proof.
  intros Hinv Hp. simpl.
  rewrite updateMapIndices_from_notin.
  - apply lookup_delete_eq.
  - apply NoDup_delete_notin; [apply (I4 _ Hinv)|done].
Qed.

Lemma erased_lookup_other s (p : nat) key k t q :
  invariants s → _vector s !! p = Some key →
  _map s !! k = Some (t, q) → k ≠ key →
  _map (erased T_default p key s) !! k =
  Some (t, if decide (q < Z.of_nat p)%Z then q else (q - 1)%Z).
Proof.
  intros Hinv Hp Hk Hne.
  destruct (I3_nat _ _ _ _ Hinv Hk) as (j & -> & Hj).
  assert (j ≠ p) by (intros ->; congruence).
  pose proof (NoDup_delete _ p (proj1 (I4 _ Hinv))) as Hnd.
  simpl. case_decide.
  - rewrite (updateMapIndices_from_in _ _ _ j) by
      (try done; rewrite list_lookup_delete_lt by lia; done).
    rewrite lookup_delete_ne, Hk by done. simpl. f_equal.
  - rewrite (updateMapIndices_from_in _ _ _ (j - 1)).
    + rewrite lookup_delete_ne, Hk by done. simpl. do 2 f_equal. lia.
    + done.
    + rewrite list_lookup_delete_ge by lia.
      by replace (S (j - 1)) with j by lia.
Qed.

Lemma erased_lookup_inv s (p : nat) key k t q' :
  invariants s → _vector s !! p = Some key →
  _map (erased T_default p key s) !! k = Some (t, q') →
  k ≠ key ∧ ∃ q, _map s !! k = Some (t, q) ∧
    q' = if decide (q < Z.of_nat p)%Z then q else (q - 1)%Z.
Proof.
  intros Hinv Hp Hk.
  assert (k ≠ key) as Hne.
  { intros ->. by rewrite erased_lookup_key in Hk. }
  split; [done|].
  assert (is_Some (_map s !! k)) as [[t0 q] Hk0].
  { assert (k ∈ dom (_map (erased T_default p key s))) as Hd
      by (apply elem_of_dom; eauto).
    simpl in Hd. rewrite updateMapIndices_from_dom in Hd.
    apply elem_of_union in Hd as [Hd|Hd].
    - apply elem_of_dom in Hd. by rewrite lookup_delete_ne in Hd.
    - apply elem_of_list_to_set in Hd.
      apply (I4 _ Hinv).
      eapply elem_of_sublist; [exact Hd|apply sublist_delete]. }
  rewrite (erased_lookup_other _ _ _ _ _ _ Hinv Hp Hk0 Hne) in Hk.
  injection Hk as <- <-. eauto.
Qed.

Lemma erased_size s (p : nat) key :
  invariants s → _vector s !! p = Some key →
  base.size (_map (erased T_default p key s)) =
  length (_vector (erased T_default p key s)).
Proof.
  intros Hinv Hp. simpl.
  rewrite <- size_dom, updateMapIndices_from_dom.
  assert (list_to_set (delete p (_vector s)) ⊆ dom (delete key (_map s))) as Hsub.
  { intros k Hk%elem_of_list_to_set. apply elem_of_dom.
    assert (k ≠ key) as Hne.
    { intros ->. revert Hk. apply NoDup_delete_notin; [apply (I4 _ Hinv)|done]. }
    rewrite lookup_delete_ne by done. apply (I4 _ Hinv).
    eapply elem_of_sublist; [exact Hk|apply sublist_delete]. }
  replace (dom (delete key (_map s)) ∪ list_to_set (delete p (_vector s)))
    with (dom (delete key (_map s))) by set_solver.
  rewrite size_dom, map_size_delete_Some, length_delete by
    (try (apply (I4 _ Hinv); by eapply list_elem_of_lookup_2); eauto).
  rewrite (I1 _ Hinv). lia.
Qed.

Lemma erased_invariants s (p : nat) key :
  invariants s → _vector s !! p = Some key →
  invariants (erased T_default p key s).
Proof.
  intros Hinv Hp.
  pose proof (NoDup_delete _ p (proj1 (I4 _ Hinv))) as Hnd.
  split.
  - symmetry. by apply erased_size.
  - intros i k Hi. simpl in *.
    rewrite (updateMapIndices_from_in _ _ _ i) by done.
    rewrite Z.add_0_l. eauto.
  - intros k t q' Hk.
    destruct (erased_lookup_inv _ _ _ _ _ _ Hinv Hp Hk) as (Hne & q & Hk0 & ->).
    destruct (I3_nat _ _ _ _ Hinv Hk0) as (j & -> & Hj).
    assert (j ≠ p) by (intros ->; congruence).
    simpl. case_decide.
    + split; [lia|]. rewrite Nat2Z.id, list_lookup_delete_lt by lia. done.
    + split; [lia|]. rewrite list_lookup_delete_ge by lia.
      by replace (S (Z.to_nat (Z.of_nat j - 1))) with j by lia.
  - split; [done|]. intros k. split.
    + intros [i Hi]%list_elem_of_lookup_1. simpl in *.
      rewrite (updateMapIndices_from_in _ _ _ i) by done. eauto.
    + intros [[t q'] Hk].
      destruct (erased_lookup_inv _ _ _ _ _ _ Hinv Hp Hk) as (Hne & q & Hk0 & _).
      simpl. eapply elem_of_delete_other; [done..|].
      apply (I4 _ Hinv). eauto.
Qed.

(** I4 follows from I2 and I3: positions and keys determine each other. *)
Lemma invariants_intro s :
  length (_vector s) = base.size (_map s) →
  (∀ (i : nat) key, _vector s !! i = Some key →
     ∃ t, _map s !! key = Some (t, Z.of_nat i)) →
  (∀ key t p, _map s !! key = Some (t, p) →
     (0 ≤ p)%Z ∧ _vector s !! Z.to_nat p = Some key) →
  invariants s.
Proof.
  intros H1 H2 H3. split; [done..|]. split.
  - apply NoDup_alt. intros i j k Hi Hj.
    destruct (H2 _ _ Hi) as [t Ht], (H2 _ _ Hj) as [t' Ht'].
    rewrite Ht in Ht'. injection Ht' as _ Hij. lia.
  - intros k. split.
    + intros [i Hi]%list_elem_of_lookup_1. destruct (H2 _ _ Hi); eauto.
    + intros [[t q] Hk]. destruct (H3 _ _ _ Hk) as [_ Hq].
      by eapply list_elem_of_lookup_2.
Qed.

Lemma check_invariants_sound s : check_invariants s = true → invariants s.
Proof.
  unfold check_invariants. rewrite !andb_true_iff, !bool_decide_eq_true.
  intros [[[[[H1 H2] H3] _] _] _]. apply invariants_intro; [done| |].
  - intros i k Hi. rewrite Forall_lookup in H2.
    specialize (H2 i (i, k)). rewrite list_lookup_imap, Hi in H2.
    specialize (H2 eq_refl). simpl in H2.
    destruct (_map s !! k) as [[t q]|]; simplify_eq/=. eauto.
  - intros k t q Hk. apply (H3 k (t, q) Hk).
Qed.

Lemma empty_map_invariants : invariants (empty_map : OrderedMap keyType T).
Proof. by apply check_invariants_sound. Qed.

(** ** [push_back] of a key that is not held *)

Lemma push_back_fresh key t s :
  _map s !! key = None →
  base.size (_map s) = length (_vector s) →
  push_back key t s = (Ok t, pushed key t s).
Proof.
  intros Hk Hsz. unfold push_back. unfold_M. rewrite exists_spec.
  rewrite bool_decide_eq_false_2 by (rewrite Hk; by intros [? ?]).
  fold (pushed key t s).
  rewrite size_consistent.
  - eapply at_key_present. simpl. apply lookup_insert_eq.
  - simpl. rewrite map_size_insert_None, length_app by done. simpl. lia.
Qed.

Lemma push_back_fresh_inconsistent key t s :
  _map s !! key = None →
  base.size (_map s) ≠ length (_vector s) →
  push_back key t s = (Throw size_mismatch, pushed key t s).
Proof.
  intros Hk Hsz. unfold push_back. unfold_M. rewrite exists_spec.
  rewrite bool_decide_eq_false_2 by (rewrite Hk; by intros [? ?]).
  fold (pushed key t s).
  rewrite size_inconsistent; [done|].
  simpl. rewrite map_size_insert_None, length_app by done. simpl. lia.
Qed.

Lemma push_back_held key t s :
  is_Some (_map s !! key) → push_back key t s = (Throw key_already_exists, s).
Proof.
  intros Hk. unfold push_back. unfold_M. rewrite exists_spec.
  by rewrite bool_decide_eq_true_2.
Qed.

Lemma pushed_invariants key t s :
  invariants s → fits_int s → _map s !! key = None →
  invariants (pushed key t s).
Proof.
  intros Hinv Hfit Hk. unfold fits_int in Hfit.
  apply invariants_intro; simpl.
  - rewrite map_size_insert_None, length_app, (I1 _ Hinv) by done. simpl. lia.
  - intros i k Hi. destruct (decide (i < length (_vector s))) as [Hlt|Hge].
    + rewrite lookup_app_l in Hi by done.
      destruct (I2 _ Hinv _ _ Hi) as [t' Ht'].
      rewrite lookup_insert_ne by congruence. eauto.
    + rewrite lookup_app_r in Hi by lia.
      apply list_lookup_singleton_Some in Hi as [Hi <-].
      rewrite lookup_insert_eq, to_int_id by lia.
      exists t. do 2 f_equal. lia.
  - intros k t' q. rewrite lookup_insert. case_decide as Hkk.
    + intros [= <- <-]. subst k. rewrite to_int_id by lia.
      split; [lia|]. rewrite Nat2Z.id. by apply list_lookup_middle.
    + intros Hq. destruct (I3 _ Hinv _ _ _ Hq) as [Hq0 Hv].
      split; [done|]. by apply lookup_app_l_Some.
Qed.

(** ** [changeKey] of a key that is held *)

Lemma changeKey_present oldKey newKey tp s :
  _map s !! oldKey = Some tp →
  in_range tp.2 (_vector s) = true →
  changeKey T_default oldKey newKey s = (Ok (), renamed oldKey newKey tp s).
Proof.
  intros Hk Hr. unfold changeKey. unfold_M.
  rewrite validateKey_present by (rewrite Hk; eauto).
  unfold map_subscript. unfold_M. rewrite Hk.
  unfold vector_at_assign. unfold_M. simpl. by rewrite Hr.
Qed.

Lemma invariants_in_range s key t q :
  invariants s → _map s !! key = Some (t, q) →
  in_range q (_vector s) = true.
Proof.
  intros Hinv Hk. destruct (I3_nat _ _ _ _ Hinv Hk) as (j & -> & Hj).
  by eapply in_range_of_nat.
Qed.

Lemma renamed_same s key tp :
  invariants s → _map s !! key = Some tp → renamed key key tp s = s.
Proof.
  intros Hinv Hk. destruct tp as [t q], s as [mp v]; simpl in *.
  destruct (I3 _ Hinv _ _ _ Hk) as [_ Hq]; simpl in *.
  unfold renamed; simpl. f_equal.
  - rewrite insert_delete_eq. by apply insert_id.
  - by apply list_insert_id.
Qed.

Lemma renamed_invariants s oldKey newKey tp :
  invariants s → _map s !! oldKey = Some tp → _map s !! newKey = None →
  invariants (renamed oldKey newKey tp s).
Proof.
  intros Hinv Hold Hnew. destruct tp as [t q].
  destruct (I3_nat _ _ _ _ Hinv Hold) as (j & -> & Hj).
  pose proof (lookup_lt_Some _ _ _ Hj) as Hlt.
  assert (oldKey ≠ newKey) as Hne by congruence.
  apply invariants_intro; simpl; rewrite ?Nat2Z.id.
  - rewrite length_insert, map_size_insert_None by
      (by rewrite lookup_delete_ne).
    rewrite map_size_delete_Some by eauto. rewrite <- (I1 _ Hinv). lia.
  - intros i k. rewrite list_lookup_insert. case_decide as Hij.
    + intros [= <-]. destruct Hij as [<- _].
      rewrite lookup_insert_eq. eauto.
    + intros Hi. destruct (I2 _ Hinv _ _ Hi) as [t' Ht'].
      assert (k ≠ oldKey).
      { intros ->. pose proof (NoDup_lookup _ _ _ _ (proj1 (I4 _ Hinv)) Hi Hj).
        lia. }
      rewrite lookup_insert_ne, lookup_delete_ne by congruence. eauto.
  - intros k t' q'. rewrite lookup_insert. case_decide as Hkk.
    + intros [= <- <-]. subst k. split; [lia|].
      rewrite Nat2Z.id. by apply list_lookup_insert_eq.
    + rewrite lookup_delete. case_decide; [done|]. intros Hk.
      destruct (I3_nat _ _ _ _ Hinv Hk) as (j' & -> & Hj').
      split; [lia|]. rewrite Nat2Z.id.
      rewrite list_lookup_insert_ne; [done|]. intros ->. congruence.
Qed.

(** ** Rejected calls *)

(** C8: [size()] returns the number of entries when [_map] and [_vector]
    have the same size (the count is the [int] it is converted to, exact
    up to [INT_MAX] entries), and otherwise throws the [runtime_error] of
    the self-check, leaving both structures as they were. *)
Theorem C8_size_self_check s :
  (base.size (_map s) = length (_vector s) → fits_int s →
     size s = (Ok (Z.of_nat (length (_vector s))), s) ∧
     Z.of_nat (length (_vector s)) = Z.of_nat (base.size (_map s))) ∧
  (base.size (_map s) ≠ length (_vector s) →
     size s = (Throw size_mismatch, s)).
Proof.
  split.
  - intros Hsz Hfit. rewrite size_consistent by done.
    unfold fits_int in Hfit. rewrite to_int_id by lia. by rewrite Hsz.
  - apply size_inconsistent.
Qed.

(** C4: [push_back] with a key that is already held throws
    [invalid_argument] ("key already exists") and the container is the
    same before and after the call. *)
Theorem C4_push_back_duplicate s key t :
  exists_ key s = (Ok true, s) →
  push_back key t s = (Throw key_already_exists, s).
Proof. intros Hk%exists_true. by apply push_back_held. Qed.

Lemma keyFor_outside index s :
  ¬ (0 ≤ index < Z.of_nat (length (_vector s)))%Z →
  keyFor index s = (Throw (index_doesnt_exist "msa::OrderedMap::keyFor(int)"), s).
Proof.
  intros Hr. unfold keyFor. unfold_M. by rewrite validateIndex_outside.
Qed.

(** C6: the index-addressed functions throw [invalid_argument]
    ("index doesn't exist") for every index outside the positions of
    [_vector], the key-addressed ones throw [invalid_argument]
    ("key doesn't exist") for every key that [exists] denies, and the
    container is the same before and after each of these calls. *)
Theorem C6_rejected_calls_do_not_mutate s :
  (∀ index, ¬ (0 ≤ index < Z.of_nat (length (_vector s)))%Z →
     at_index index s =
       (Throw (index_doesnt_exist "msa::OrderedMap::at(int)"), s) ∧
     keyFor index s =
       (Throw (index_doesnt_exist "msa::OrderedMap::keyFor(int)"), s) ∧
     (∀ newKey, changeKey_index T_default index newKey s =
       (Throw (index_doesnt_exist "msa::OrderedMap::changeKey(int)"), s)) ∧
     erase_index T_default index s =
       (Throw (index_doesnt_exist "msa::OrderedMap::erase(int)"), s)) ∧
  (∀ key, exists_ key s = (Ok false, s) →
     at_key key s =
       (Throw (key_doesnt_exist "msa::OrderedMap::at(keyType)"), s) ∧
     indexFor key s =
       (Throw (key_doesnt_exist "msa::OrderedMap::indexFor(keyType)"), s) ∧
     (∀ newKey, changeKey T_default key newKey s =
       (Throw (key_doesnt_exist "msa::OrderedMap::changeKey(keyType)"), s)) ∧
     erase_key T_default key s =
       (Throw (key_doesnt_exist "msa::OrderedMap::erase(keyType)"), s)).
Proof.
  split.
  - intros index Hr. repeat split; [| |intros newKey|].
    + unfold at_index. unfold_M. by rewrite validateIndex_outside.
    + by apply keyFor_outside.
    + unfold changeKey_index. unfold_M. by rewrite validateIndex_outside.
    + unfold erase_index. unfold_M. by rewrite validateIndex_outside.
  - intros key Hk%exists_false. repeat split; [| |intros newKey|].
    + unfold at_key. unfold_M. by rewrite validateKey_absent.
    + unfold indexFor. unfold_M. by rewrite validateKey_absent.
    + unfold changeKey. unfold_M. by rewrite validateKey_absent.
    + unfold erase_key. unfold_M. by rewrite validateKey_absent.
Qed.

(** ** What a returned value tells about the state *)

Lemma keyFor_Ok_inv index key s s' :
  keyFor index s = (Ok key, s') →
  s' = s ∧ (0 ≤ index)%Z ∧ _vector s !! Z.to_nat index = Some key.
Proof.
  unfold keyFor, validateIndex, vector_subscript, in_range. unfold_M.
  intros Hk. repeat case_match; simplify_eq/=.
  repeat case_bool_decide; simplify_eq/=. done.
Qed.

Lemma at_key_Ok_inv key t s s' :
  at_key key s = (Ok t, s') → s' = s ∧ ∃ q, _map s !! key = Some (t, q).
Proof.
  unfold at_key, validateKey, exists_, map_at. unfold_M.
  intros Hk. repeat case_match; simplify_eq/=.
  match goal with Hl : _ !! _ = Some ?a |- _ => destruct a; eauto end.
Qed.

Lemma indexFor_Ok_inv key q s s' :
  indexFor key s = (Ok q, s') → s' = s ∧ ∃ t, _map s !! key = Some (t, q).
Proof.
  unfold indexFor, validateKey, exists_, map_at. unfold_M.
  intros Hk. repeat case_match; simplify_eq/=.
  match goal with Hl : _ !! _ = Some ?a |- _ => destruct a; eauto end.
Qed.

Lemma at_index_Ok_inv index t s s' :
  at_index index s = (Ok t, s') →
  s' = s ∧ (0 ≤ index)%Z ∧
  ∃ key q, _vector s !! Z.to_nat index = Some key ∧ _map s !! key = Some (t, q).
Proof.
  unfold at_index, validateIndex, vector_subscript, in_range. unfold_M.
  intros Hk. repeat case_match; simplify_eq/=.
  repeat case_bool_decide; simplify_eq/=.
  match goal with Hat : at_key _ _ = _ |- _ =>
    apply at_key_Ok_inv in Hat as [-> [q Hq]] end.
  eauto 10.
Qed.

(** An entry seen through the public interface: [key] is at position
    [index] and holds [t]. *)
Lemma entry_inv s index key t :
  invariants s →
  keyFor index s = (Ok key, s) → at_index index s = (Ok t, s) →
  ∃ j : nat, index = Z.of_nat j ∧ _vector s !! j = Some key ∧
             _map s !! key = Some (t, Z.of_nat j).
Proof.
  intros Hinv (_ & Hi & Hv)%keyFor_Ok_inv (_ & _ & k & q & Hv' & Hk)%at_index_Ok_inv.
  rewrite Hv in Hv'. injection Hv' as <-.
  destruct (I2 _ Hinv _ _ Hv) as [t' Ht']. rewrite Hk in Ht'.
  injection Ht' as <- ->.
  exists (Z.to_nat index). split; [lia|]. split; [done|].
  rewrite Hk. do 2 f_equal.
Qed.

(** ** The two [erase] overloads on a live entry *)

Lemma erase_index_live s (j : nat) key :
  invariants s → _vector s !! j = Some key →
  erase_index T_default (Z.of_nat j) s = (Ok (), erased T_default j key s).
Proof.
  intros Hinv Hj. unfold erase_index. unfold_M.
  rewrite validateIndex_inside by (by eapply in_range_of_nat).
  rewrite (keyFor_of_nat _ _ _ Hj).
  rewrite fastErase_in_range by (by eapply in_range_of_nat).
  rewrite Nat2Z.id, size_consistent; [done|].
  by apply erased_size.
Qed.

Lemma erase_key_live s (j : nat) key :
  invariants s → _vector s !! j = Some key →
  erase_key T_default key s = (Ok (), erased T_default j key s).
Proof.
  intros Hinv Hj. destruct (I2 _ Hinv _ _ Hj) as [t Hk].
  unfold erase_key. unfold_M.
  rewrite validateKey_present by (rewrite Hk; eauto).
  rewrite (indexFor_present _ _ _ _ Hk).
  rewrite fastErase_in_range by (by eapply in_range_of_nat).
  rewrite Nat2Z.id, size_consistent; [done|].
  by apply erased_size.
Qed.

(** C9: on a container that satisfies the invariants and for a valid
    index, [erase(index)], [erase(keyFor(index))] and
    [fastErase(index, keyFor(index))] all return, in the same state. *)
Theorem C9_erase_overloads_agree s index key :
  invariants s → keyFor index s = (Ok key, s) →
  ∃ s', fastErase T_default index key s = (Ok (), s') ∧
        erase_index T_default index s = (Ok (), s') ∧
        erase_key T_default key s = (Ok (), s').
Proof.
  intros Hinv (_ & Hi & Hv)%keyFor_Ok_inv.
  exists (erased T_default (Z.to_nat index) key s). split; [|split].
  - apply fastErase_in_range. apply in_range_true.
    apply lookup_lt_Some in Hv. lia.
  - rewrite <- (Z2Nat.id index) at 1 by done. by apply erase_index_live.
  - by apply erase_key_live.
Qed.

(** C3: [changeKey(oldKey, newKey)] on a held [oldKey] returns; afterwards
    [at(newKey)] is the value [oldKey] had and [indexFor(newKey)] the
    position [oldKey] had; in [_vector] only the label at that position
    changes, and in [_map] only the entries of [oldKey] and [newKey]. *)
Theorem C3_changeKey_keeps_value_and_position s oldKey newKey t p :
  invariants s →
  at_key oldKey s = (Ok t, s) → indexFor oldKey s = (Ok p, s) →
  ∃ s', changeKey T_default oldKey newKey s = (Ok (), s') ∧
        at_key newKey s' = (Ok t, s') ∧
        indexFor newKey s' = (Ok p, s') ∧
        keyFor p s' = (Ok newKey, s') ∧
        _vector s' = <[Z.to_nat p := newKey]> (_vector s) ∧
        (∀ index, index ≠ p → keyFor index s' = ((keyFor index s).1, s')) ∧
        (oldKey ≠ newKey → exists_ oldKey s' = (Ok false, s')) ∧
        (∀ key, key ≠ oldKey → key ≠ newKey → _map s' !! key = _map s !! key).
Proof.
  intros Hinv (_ & q & Hq)%at_key_Ok_inv (_ & t' & Hk)%indexFor_Ok_inv.
  rewrite Hq in Hk. injection Hk as <- ->.
  destruct (I3_nat _ _ _ _ Hinv Hq) as (j & -> & Hj).
  exists (renamed oldKey newKey (t, Z.of_nat j) s).
  split; [|split; [|split; [|split; [|split; [|split; [|split]]]]]].
  - apply changeKey_present; [done|]. by eapply in_range_of_nat.
  - eapply at_key_present. simpl. apply lookup_insert_eq.
  - eapply indexFor_present. simpl. apply lookup_insert_eq.
  - apply keyFor_of_nat. unfold renamed. cbn [_vector snd]. rewrite Nat2Z.id.
    apply list_lookup_insert_eq. by eapply lookup_lt_Some.
  - done.
  - intros index Hne. unfold keyFor, validateIndex, vector_subscript, in_range.
    unfold_M. unfold renamed. cbn [_vector snd]. rewrite length_insert, Nat2Z.id.
    repeat (case_bool_decide; simpl; rewrite ?length_insert in *); try done; try lia.
    rewrite list_lookup_insert_ne by lia.
    by destruct (_vector s !! Z.to_nat index).
  - intros Hne. apply exists_false. simpl.
    rewrite lookup_insert_ne, lookup_delete_eq by done. done.
  - intros key Ho Hn. simpl.
    by rewrite lookup_insert_ne, lookup_delete_ne.
Qed.

(** ** Entries across an [erase] *)

(** The position of the entry that was at [j] once position [p] is gone. *)
Lemma erased_entry s (p j : nat) key k t :
  invariants s → _vector s !! p = Some key →
  _vector s !! j = Some k → _map s !! k = Some (t, Z.of_nat j) → j ≠ p →
  ∀ j' : nat, j' = (if decide (j < p) then j else j - 1) →
  _vector (erased T_default p key s) !! j' = Some k ∧
  _map (erased T_default p key s) !! k = Some (t, Z.of_nat j').
Proof.
  intros Hinv Hp Hj Hk Hne j' ->.
  assert (k ≠ key) as Hkk.
  { intros ->. apply Hne.
    by eapply NoDup_lookup; [apply (I4 _ Hinv)|..]. }
  rewrite (erased_lookup_other _ _ _ _ _ _ Hinv Hp Hk Hkk). simpl.
  case_decide.
  - rewrite decide_True by lia. by rewrite list_lookup_delete_lt.
  - rewrite decide_False by lia. rewrite list_lookup_delete_ge by lia.
    replace (S (j - 1)) with j by lia. split; [done|].
    do 2 f_equal. lia.
Qed.

Lemma entry_observed s (j : nat) k t :
  _vector s !! j = Some k → _map s !! k = Some (t, Z.of_nat j) →
  keyFor (Z.of_nat j) s = (Ok k, s) ∧ at_index (Z.of_nat j) s = (Ok t, s) ∧
  at_key k s = (Ok t, s) ∧ indexFor k s = (Ok (Z.of_nat j), s).
Proof.
  intros Hj Hk. split; [|split; [|split]].
  - by apply keyFor_of_nat.
  - by eapply at_index_of_nat.
  - by eapply at_key_present.
  - by eapply indexFor_present.
Qed.

(** C2: erasing the entry at a valid position [index], by index or by its
    key, returns in one and the same state, in which the key is in
    neither structure, every entry that was at a later position [q] is at
    [q - 1] with its key and value, every entry at an earlier position is
    where it was, and [size()] is one less (both sizes being exact as
    [int] for a container of at most [INT_MAX] entries). *)
Theorem C2_erase_shifts_later_entries s index key :
  invariants s → keyFor index s = (Ok key, s) →
  ∃ s', erase_index T_default index s = (Ok (), s') ∧
        erase_key T_default key s = (Ok (), s') ∧
        exists_ key s' = (Ok false, s') ∧ (key ∉ _vector s') ∧
        (∀ q k t, (index < q)%Z →
           keyFor q s = (Ok k, s) → at_index q s = (Ok t, s) →
           keyFor (q - 1) s' = (Ok k, s') ∧ at_index (q - 1) s' = (Ok t, s') ∧
           at_key k s' = (Ok t, s') ∧ indexFor k s' = (Ok (q - 1)%Z, s')) ∧
        (∀ q k t, (q < index)%Z →
           keyFor q s = (Ok k, s) → at_index q s = (Ok t, s) →
           keyFor q s' = (Ok k, s') ∧ at_index q s' = (Ok t, s') ∧
           at_key k s' = (Ok t, s') ∧ indexFor k s' = (Ok q, s')) ∧
        length (_vector s') = length (_vector s) - 1 ∧
        (fits_int s →
           size s = (Ok (Z.of_nat (length (_vector s))), s) ∧
           size s' = (Ok (Z.of_nat (length (_vector s)) - 1)%Z, s')).
Proof.
  intros Hinv Hkey. pose proof Hkey as (_ & Hi & Hv)%keyFor_Ok_inv.
  destruct (Z_of_nat_complete index Hi) as [p ->]. rewrite Nat2Z.id in Hv.
  exists (erased T_default p key s).
  split; [|split; [|split; [|split; [|split; [|split; [|split]]]]]].
  - by apply erase_index_live.
  - by apply erase_key_live.
  - apply exists_false. by apply erased_lookup_key.
  - apply NoDup_delete_notin; [apply (I4 _ Hinv)|done].
  - intros q k t Hlt Hk Ht.
    destruct (entry_inv _ _ _ _ Hinv Hk Ht) as (j & -> & Hj & Hm).
    destruct (erased_entry _ p j key k t Hinv Hv Hj Hm ltac:(lia) (j - 1))
      as [Hv' Hm']; [by rewrite decide_False by lia|].
    replace (Z.of_nat j - 1)%Z with (Z.of_nat (j - 1)) by lia.
    by apply entry_observed.
  - intros q k t Hlt Hk Ht.
    destruct (entry_inv _ _ _ _ Hinv Hk Ht) as (j & -> & Hj & Hm).
    destruct (erased_entry _ p j key k t Hinv Hv Hj Hm ltac:(lia) j)
      as [Hv' Hm']; [by rewrite decide_True by lia|].
    by apply entry_observed.
  - simpl. by rewrite length_delete by eauto.
  - intros Hfit. unfold fits_int in Hfit. split.
    + rewrite size_consistent by (symmetry; apply (I1 _ Hinv)).
      by rewrite to_int_id by lia.
    + rewrite size_consistent by (by apply erased_size).
      simpl. rewrite length_delete by eauto.
      apply lookup_lt_Some in Hv.
      rewrite to_int_id by lia. do 2 f_equal. lia.
Qed.

(** ** Successive insertions *)

Lemma push_back_all_fresh kts s :
  invariants s → NoDup kts.*1 →
  (∀ k, k ∈ kts.*1 → _map s !! k = None) →
  (Z.of_nat (length (_vector s) + length kts) ≤ INT_MAX)%Z →
  ∃ s', push_back_all kts s = (Ok (), s') ∧ invariants s' ∧
        _vector s' = _vector s ++ kts.*1.
Proof.
  revert s. induction kts as [|[k t] kts IH]; intros s Hinv Hnd Hfresh Hfit.
  - exists s. simpl. by rewrite app_nil_r.
  - rewrite fmap_cons in Hnd. apply NoDup_cons in Hnd as [Hk Hnd].
    simpl in *.
    assert (_map s !! k = None) as Hnone by (apply Hfresh; left).
    destruct (IH (pushed k t s)) as (s' & Hrun & Hinv' & Hv').
    + apply pushed_invariants; [done| |done]. unfold fits_int. lia.
    + done.
    + intros k' Hk'. simpl. rewrite lookup_insert_ne by (intros ->; done).
      apply Hfresh. by right.
    + simpl. rewrite length_app. simpl. lia.
    + exists s'. split; [|split; [done|]].
      * unfold_M. rewrite push_back_fresh by
          (try done; symmetry; apply (I1 _ Hinv)).
        done.
      * rewrite Hv'. simpl. by rewrite <- app_assoc.
Qed.

(** C5: [push_back] called on pairwise distinct keys, starting from an
    empty container, returns every time; afterwards [size()] is the
    number of calls and [keyFor(indexFor(k))] is [k] for every inserted
    key [k]. *)
Theorem C5_insertions_with_distinct_keys (kts : list (keyType * T)) :
  NoDup kts.*1 → (Z.of_nat (length kts) ≤ INT_MAX)%Z →
  ∃ s, push_back_all kts empty_map = (Ok (), s) ∧
       size s = (Ok (Z.of_nat (length kts)), s) ∧
       ∀ k, k ∈ kts.*1 →
         ∃ index, indexFor k s = (Ok index, s) ∧ keyFor index s = (Ok k, s).
Proof.
  intros Hnd Hfit.
  destruct (push_back_all_fresh kts empty_map) as (s & Hrun & Hinv & Hv);
    [apply empty_map_invariants|done|done|simpl; lia|].
  simpl in Hv. exists s. split; [done|]. split.
  - rewrite size_consistent by (symmetry; apply (I1 _ Hinv)).
    rewrite Hv, length_fmap. by rewrite to_int_id by lia.
  - intros k Hk. rewrite <- Hv in Hk.
    apply list_elem_of_lookup_1 in Hk as [i Hi].
    destruct (I2 _ Hinv _ _ Hi) as [t Ht].
    exists (Z.of_nat i). split.
    + by eapply indexFor_present.
    + by apply keyFor_of_nat.
Qed.

(** ** Which calls take a key out of [_map] *)

Lemma updateMapIndices_from_keeps (i : Z) keys mp key :
  is_Some (mp !! key) →
  is_Some (updateMapIndices_from T_default i keys mp !! key).
Proof.
  revert i mp. induction keys as [|a keys IH]; intros i mp Hk; [done|].
  simpl. apply IH. rewrite set_second_lookup. case_decide; eauto.
Qed.







(** ** [changeKey] onto a key that is already held *)


Lemma list_to_set_delete s (p : nat) key :
  invariants s → _vector s !! p = Some key →
  list_to_set (C := gset keyType) (delete p (_vector s)) = dom (delete key (_map s)).
Proof.
  intros Hinv Hp. apply set_eq. intros k.
  rewrite elem_of_list_to_set, elem_of_dom, lookup_delete.
  split.
  - intros Hk. rewrite decide_False.
    + apply (I4 _ Hinv). eapply elem_of_sublist; [exact Hk|apply sublist_delete].
    + intros ->. revert Hk. apply NoDup_delete_notin; [apply (I4 _ Hinv)|done].
  - case_decide; [by intros [? ?]|]. intros Hk%(I4 _ Hinv).
    by eapply elem_of_delete_other; [done|congruence|].
Qed.


(** ** The invariants across the public interface *)

Lemma changeKey_keeps_invariants s oldKey newKey tp :
  invariants s → _map s !! oldKey = Some tp →
  oldKey = newKey ∨ _map s !! newKey = None →
  ∃ s', changeKey T_default oldKey newKey s = (Ok (), s') ∧ invariants s'.
Proof.
  intros Hinv Hold Hnew. exists (renamed oldKey newKey tp s). split.
  - apply changeKey_present; [done|]. destruct tp as [t q].
    by eapply invariants_in_range.
  - destruct (decide (oldKey = newKey)) as [<-|Hne].
    + by rewrite renamed_same.
    + apply renamed_invariants; [done..|]. by destruct Hnew.
Qed.

(** Every call of the public interface, on a container that satisfies
    the invariants and holds at most [INT_MAX] entries, returns in a state
    that satisfies them or throws and leaves the container as it was,
    unless it is a [changeKey] onto another key that is already held. *)
Lemma public_calls_keep_invariants c s :
  invariants s → fits_int s → ¬ renames_onto_held c s →
  (∃ s', run T_default c s = (Returned, s') ∧ invariants s') ∨
  (∃ e, run T_default c s = (Thrown e, s)).
Proof.
  intros Hinv Hfit Hc.
  assert (∀ index, in_range index (_vector s) = true →
            ∃ (j : nat) key t, index = Z.of_nat j ∧ _vector s !! j = Some key ∧
                               _map s !! key = Some (t, Z.of_nat j)) as Hlive.
  { intros index [Hi Hlt]%in_range_true.
    destruct (lookup_lt_is_Some_2 (_vector s) (Z.to_nat index)) as [key Hj];
      [lia|].
    destruct (I2 _ Hinv _ _ Hj) as [t Ht].
    exists (Z.to_nat index), key, t. split; [lia|done]. }
  assert (∀ index msg, in_range index (_vector s) = false →
            validateIndex index msg s = (Throw (index_doesnt_exist msg), s))
    as Hout.
  { intros index msg Hr%in_range_false. by apply validateIndex_outside. }
  destruct c as [|key t|index|key|index|key|key|index newKey|oldKey newKey
                 |index|key|]; unfold run.
  - left. exists s. split; [|done].
    by rewrite size_consistent by (symmetry; apply (I1 _ Hinv)).
  - destruct (_map s !! key) as [tp|] eqn:Hk.
    + right. eexists. by rewrite push_back_held by (rewrite Hk; eauto).
    + left. exists (pushed key t s). split.
      * by rewrite push_back_fresh by (try done; symmetry; apply (I1 _ Hinv)).
      * by apply pushed_invariants.
  - destruct (in_range index (_vector s)) eqn:Hr.
    + left. destruct (Hlive _ Hr) as (j & key & t & -> & Hj & Ht).
      exists s. split; [|done]. by erewrite at_index_of_nat.
    + right. eexists. unfold at_index. unfold_M. by rewrite Hout.
  - destruct (_map s !! key) as [[t q]|] eqn:Hk.
    + left. exists s. split; [|done]. by erewrite at_key_present.
    + right. eexists. unfold at_key. unfold_M.
      by rewrite validateKey_absent.
  - destruct (in_range index (_vector s)) eqn:Hr.
    + left. destruct (Hlive _ Hr) as (j & key & t & -> & Hj & Ht).
      exists s. split; [|done]. by erewrite keyFor_of_nat.
    + right. eexists. unfold keyFor. unfold_M. by rewrite Hout.
  - destruct (_map s !! key) as [[t q]|] eqn:Hk.
    + left. exists s. split; [|done]. by erewrite indexFor_present.
    + right. eexists. unfold indexFor. unfold_M.
      by rewrite validateKey_absent.
  - left. exists s. split; [|done]. by rewrite exists_spec.
  - destruct (in_range index (_vector s)) eqn:Hr.
    + left. destruct (Hlive _ Hr) as (j & oldKey & t & -> & Hj & Ht).
      destruct (changeKey_keeps_invariants s oldKey newKey _ Hinv Ht)
        as (s' & Hs' & Hinv').
      { destruct (decide (oldKey = newKey)) as [|Hne]; [by left|right].
        apply eq_None_not_Some. intros Hnew. apply Hc. exists oldKey.
        by rewrite Nat2Z.id. }
      exists s'. split; [|done]. unfold changeKey_index. unfold_M.
      rewrite validateIndex_inside by done.
      by rewrite (keyFor_of_nat _ _ _ Hj), Hs'.
    + right. eexists. unfold changeKey_index. unfold_M. by rewrite Hout.
  - destruct (_map s !! oldKey) as [tp|] eqn:Hk.
    + left. destruct (changeKey_keeps_invariants s oldKey newKey _ Hinv Hk)
        as (s' & Hs' & Hinv').
      { destruct (decide (oldKey = newKey)) as [|Hne]; [by left|right].
        apply eq_None_not_Some. intros Hnew. apply Hc. simpl.
        rewrite Hk. eauto. }
      exists s'. by rewrite Hs'.
    + right. eexists. unfold changeKey. unfold_M.
      by rewrite validateKey_absent.
  - destruct (in_range index (_vector s)) eqn:Hr.
    + left. destruct (Hlive _ Hr) as (j & key & t & -> & Hj & Ht).
      exists (erased T_default j key s). split.
      * by rewrite (erase_index_live _ _ key).
      * by apply erased_invariants.
    + right. eexists. unfold erase_index. unfold_M. by rewrite Hout.
  - destruct (_map s !! key) as [[t q]|] eqn:Hk.
    + left. destruct (I3_nat _ _ _ _ Hinv Hk) as (j & -> & Hj).
      exists (erased T_default j key s). split.
      * by rewrite (erase_key_live _ j).
      * by apply erased_invariants.
    + right. eexists. unfold erase_key. unfold_M.
      by rewrite validateKey_absent.
  - left. exists empty_map. split; [done|apply empty_map_invariants].
Qed.

(** * Further properties of the member functions *)

(** ** Insertion and lookup *)

Lemma pushed_keeps_entry key t s k x :
  _map s !! key = None → _map s !! k = Some x →
  _map (pushed key t s) !! k = Some x.
Proof.
  intros Hnone Hk. simpl. rewrite lookup_insert_ne; [done|]. congruence.
Qed.

(** X1: [push_back] of a key that is not held, on a container that
    satisfies the invariants and holds at most [INT_MAX] entries, returns
    the inserted value and appends: the new entry is at the position that
    was the size, reachable by key and by index, and every entry held
    before keeps its key, value and position. *)
Theorem X1_push_back_appends s key t :
  invariants s → fits_int s → exists_ key s = (Ok false, s) →
  ∃ s', push_back key t s = (Ok t, s') ∧ invariants s' ∧
        length (_vector s') = S (length (_vector s)) ∧
        keyFor (Z.of_nat (length (_vector s))) s' = (Ok key, s') ∧
        at_index (Z.of_nat (length (_vector s))) s' = (Ok t, s') ∧
        at_key key s' = (Ok t, s') ∧
        indexFor key s' = (Ok (Z.of_nat (length (_vector s))), s') ∧
        (∀ index k t0,
           keyFor index s = (Ok k, s) → at_index index s = (Ok t0, s) →
           keyFor index s' = (Ok k, s') ∧ at_index index s' = (Ok t0, s') ∧
           at_key k s' = (Ok t0, s') ∧ indexFor k s' = (Ok index, s')).
Proof.
  intros Hinv Hfit Hnone%exists_false. exists (pushed key t s).
  assert (_map (pushed key t s) !! key
          = Some (t, Z.of_nat (length (_vector s)))) as Hnew.
  { simpl. rewrite lookup_insert_eq, to_int_id; [done|].
    unfold fits_int in Hfit. lia. }
  assert (_vector (pushed key t s) !! length (_vector s) = Some key) as Hlast
    by (simpl; by apply list_lookup_middle).
  split; [|split; [|split; [|split; [|split; [|split; [|split]]]]]].
  - apply push_back_fresh; [done|]. symmetry. apply (I1 _ Hinv).
  - by apply pushed_invariants.
  - simpl. rewrite length_app. simpl. lia.
  - by apply keyFor_of_nat.
  - by eapply at_index_of_nat.
  - by eapply at_key_present.
  - by eapply indexFor_present.
  - intros index k t0 Hk Ht.
    destruct (entry_inv _ _ _ _ Hinv Hk Ht) as (j & -> & Hj & Hm).
    apply entry_observed.
    + simpl. by apply lookup_app_l_Some.
    + by apply pushed_keeps_entry.
Qed.

Lemma push_back_all_entries kts s :
  invariants s → NoDup kts.*1 →
  (∀ k, k ∈ kts.*1 → _map s !! k = None) →
  (Z.of_nat (length (_vector s) + length kts) ≤ INT_MAX)%Z →
  ∃ s', push_back_all kts s = (Ok (), s') ∧ invariants s' ∧
        _vector s' = _vector s ++ kts.*1 ∧
        (∀ k x, _map s !! k = Some x → _map s' !! k = Some x) ∧
        (∀ k t, (k, t) ∈ kts → ∃ q, _map s' !! k = Some (t, q)).
Proof.
  revert s. induction kts as [|[k t] kts IH]; intros s Hinv Hnd Hfresh Hfit.
  - exists s. simpl. rewrite app_nil_r.
    repeat (split; [done|]). intros k t Hk. by apply elem_of_nil in Hk.
  - rewrite fmap_cons in Hnd. apply NoDup_cons in Hnd as [Hk Hnd].
    simpl in *.
    assert (_map s !! k = None) as Hnone by (apply Hfresh; left).
    destruct (IH (pushed k t s)) as (s' & Hrun & Hinv' & Hv' & Hold & Hnew).
    + apply pushed_invariants; [done| |done]. unfold fits_int. lia.
    + done.
    + intros k' Hk'. simpl. rewrite lookup_insert_ne by (intros ->; done).
      apply Hfresh. by right.
    + simpl. rewrite length_app. simpl. lia.
    + exists s'. split; [|split; [done|split; [|split]]].
      * unfold_M. rewrite push_back_fresh by
          (try done; symmetry; apply (I1 _ Hinv)).
        done.
      * rewrite Hv'. simpl. by rewrite <- app_assoc.
      * intros k' x Hk'. apply Hold. by apply pushed_keeps_entry.
      * intros k' t' [[= -> ->]|Hin]%elem_of_cons.
        -- eexists. apply Hold. simpl. apply lookup_insert_eq.
        -- by apply Hnew.
Qed.

(** X2: after [push_back] calls on pairwise distinct keys, starting from an
    empty container, the entries are in the order of the calls: position
    [i] holds the key and the value of the [i]-th call, by index and by
    key, and the invariants hold. *)
Theorem X2_insertion_order_is_kept (kts : list (keyType * T)) :
  NoDup kts.*1 → (Z.of_nat (length kts) ≤ INT_MAX)%Z →
  ∃ s, push_back_all kts empty_map = (Ok (), s) ∧ invariants s ∧
       _vector s = kts.*1 ∧
       ∀ (i : nat) k t, kts !! i = Some (k, t) →
         keyFor (Z.of_nat i) s = (Ok k, s) ∧
         at_index (Z.of_nat i) s = (Ok t, s) ∧
         at_key k s = (Ok t, s) ∧
         indexFor k s = (Ok (Z.of_nat i), s).
Proof.
  intros Hnd Hfit.
  destruct (push_back_all_entries kts empty_map)
    as (s & Hrun & Hinv & Hv & _ & Hval);
    [apply empty_map_invariants|done|done|simpl; lia|].
  simpl in Hv. exists s. split; [done|]. split; [done|]. split; [done|].
  intros i k t Hi.
  assert (_vector s !! i = Some k) as Hvi
    by (by rewrite Hv, list_lookup_fmap, Hi).
  destruct (I2 _ Hinv _ _ Hvi) as [t' Ht'].
  destruct (Hval k t) as [q Hq]; [by eapply list_elem_of_lookup_2|].
  rewrite Hq in Ht'. injection Ht' as <- ->.
  by apply entry_observed.
Qed.

(** ** Keys and positions *)

(** X3: on a container that satisfies the invariants, [keyFor] and
    [indexFor] are inverse to each other: [keyFor(index)] returns [key]
    exactly when [indexFor(key)] returns [index]; so every position that
    [indexFor] returns is a position of the container. *)
Theorem X3_keyFor_indexFor_inverse s index key :
  invariants s →
  (keyFor index s = (Ok key, s) ↔ indexFor key s = (Ok index, s)) ∧
  (indexFor key s = (Ok index, s) →
     (0 ≤ index < Z.of_nat (length (_vector s)))%Z).
Proof.
  intros Hinv. split; [split|].
  - intros (_ & Hi & Hv)%keyFor_Ok_inv.
    destruct (I2 _ Hinv _ _ Hv) as [t Ht].
    rewrite Z2Nat.id in Ht by done. by eapply indexFor_present.
  - intros (_ & t & Hk)%indexFor_Ok_inv.
    destruct (I3_nat _ _ _ _ Hinv Hk) as (j & -> & Hj).
    by apply keyFor_of_nat.
  - intros (_ & t & Hk)%indexFor_Ok_inv.
    by apply in_range_true, (invariants_in_range _ key t).
Qed.

(** X4: on every state, [exists(key)] tells whether the key-addressed
    lookups return: it is true exactly when [at(key)] returns a value, and
    exactly when [indexFor(key)] returns a position. *)
Theorem X4_exists_guards_key_lookups s key :
  (exists_ key s = (Ok true, s) ↔ ∃ t, at_key key s = (Ok t, s)) ∧
  (exists_ key s = (Ok true, s) ↔ ∃ p, indexFor key s = (Ok p, s)).
Proof.
  split; split.
  - intros [[t q] Hk]%exists_true. exists t. by eapply at_key_present.
  - intros [t (_ & q & Hk)%at_key_Ok_inv]. apply exists_true. eauto.
  - intros [[t q] Hk]%exists_true. exists q. by eapply indexFor_present.
  - intros [q (_ & t & Hk)%indexFor_Ok_inv]. apply exists_true. eauto.
Qed.

(** X5: on a container that satisfies the invariants, the loop of the
    example, [for (i = 0; i < size(); i++) keyFor(i), at(i)], never throws:
    for every position [index] both calls return, and [at(index)] is the
    value that [at(keyFor(index))] returns. *)
Theorem X5_valid_positions_are_readable s index :
  invariants s → (0 ≤ index < Z.of_nat (length (_vector s)))%Z →
  ∃ key t, keyFor index s = (Ok key, s) ∧ at_index index s = (Ok t, s) ∧
           at_key key s = (Ok t, s).
Proof.
  intros Hinv [Hi Hlt].
  destruct (lookup_lt_is_Some_2 (_vector s) (Z.to_nat index)) as [key Hj];
    [lia|].
  destruct (I2 _ Hinv _ _ Hj) as [t Ht].
  exists key, t. rewrite <- (Z2Nat.id index) by done.
  destruct (entry_observed s _ key t Hj Ht) as (Hk & Hat & Hak & _). eauto.
Qed.

(** X6: the accessors [size], [exists], [at] (both overloads), [keyFor]
    and [indexFor] leave [_map] and [_vector] as they were, whatever they
    return or throw and whatever the state, and they never run into
    undefined behaviour. *)
Theorem X6_accessors_do_not_mutate s :
  ((size s).2 = s ∧ (size s).1 ≠ Undefined) ∧
  (∀ key, (exists_ key s).2 = s ∧ (exists_ key s).1 ≠ Undefined) ∧
  (∀ key, (at_key key s).2 = s ∧ (at_key key s).1 ≠ Undefined) ∧
  (∀ index, (at_index index s).2 = s ∧ (at_index index s).1 ≠ Undefined) ∧
  (∀ index, (keyFor index s).2 = s ∧ (keyFor index s).1 ≠ Undefined) ∧
  (∀ key, (indexFor key s).2 = s ∧ (indexFor key s).1 ≠ Undefined).
Proof.
  assert (∀ key, (at_key key s).2 = s ∧ (at_key key s).1 ≠ Undefined) as Hat.
  { intros key. unfold at_key, validateKey, exists_, map_at. unfold_M.
    repeat case_match; simplify_eq/=; done. }
  split; [|split; [|split; [done|split; [|split]]]].
  - unfold size. unfold_M. by case_bool_decide.
  - done.
  - intros index. unfold at_index, validateIndex, vector_subscript, in_range.
    unfold_M.
    destruct (_vector s !! Z.to_nat index) as [key|] eqn:Hv.
    + repeat (case_bool_decide; simpl; rewrite ?Hv); try done; try lia;
        apply Hat.
    + apply lookup_ge_None in Hv.
      repeat (case_bool_decide; simpl; rewrite ?Hv); try done; lia.
  - intros index. unfold keyFor, validateIndex, vector_subscript, in_range.
    unfold_M.
    destruct (_vector s !! Z.to_nat index) as [key|] eqn:Hv.
    + repeat (case_bool_decide; simpl; rewrite ?Hv); try done; lia.
    + apply lookup_ge_None in Hv.
      repeat (case_bool_decide; simpl; rewrite ?Hv); try done; lia.
  - intros key. unfold indexFor, validateKey, exists_, map_at. unfold_M.
    repeat case_match; simplify_eq/=; done.
Qed.

(** ** Renaming *)

(** X7: on a container that satisfies the invariants, [changeKey(key, key)]
    of a held key returns and leaves the container exactly as it was. *)
Theorem X7_changeKey_to_same_key s key :
  invariants s → exists_ key s = (Ok true, s) →
  changeKey T_default key key s = (Ok (), s).
Proof.
  intros Hinv [[t q] Hk]%exists_true.
  rewrite (changeKey_present _ _ _ _ Hk) by (by eapply invariants_in_range).
  by rewrite renamed_same.
Qed.

(** X8: renaming a held key to a key that is not held and then back
    restores the container exactly; the state in between satisfies the
    invariants. *)
Theorem X8_changeKey_there_and_back s oldKey newKey :
  invariants s →
  exists_ oldKey s = (Ok true, s) → exists_ newKey s = (Ok false, s) →
  ∃ s', changeKey T_default oldKey newKey s = (Ok (), s') ∧ invariants s' ∧
        changeKey T_default newKey oldKey s' = (Ok (), s).
Proof.
  intros Hinv [[t q] Hold]%exists_true Hnew%exists_false.
  pose proof (invariants_in_range _ _ _ _ Hinv Hold) as Hr.
  destruct (I3 _ Hinv _ _ _ Hold) as [_ Hq].
  exists (renamed oldKey newKey (t, q) s). split; [|split].
  - by apply changeKey_present.
  - by apply renamed_invariants.
  - rewrite (changeKey_present _ _ (t, q)).
    + f_equal. destruct s as [mp v]. unfold renamed. simpl in *. f_equal.
      * rewrite delete_insert_eq, (delete_id (delete oldKey mp)) by
          (by rewrite lookup_delete_ne by congruence).
        rewrite insert_delete_eq. by apply insert_id.
      * rewrite list_insert_insert_eq. by apply list_insert_id.
    + simpl. apply lookup_insert_eq.
    + apply in_range_true. apply in_range_true in Hr.
      simpl. by rewrite length_insert.
Qed.

(** X9: [changeKey(index, newKey)] with a valid index and a [newKey] that
    is not held does what [changeKey(keyFor(index), newKey)] does: both
    return in the same state, which satisfies the invariants; the position
    now carries [newKey] with the value it had, the old key is gone and the
    number of entries is the same. *)
Theorem X9_changeKey_by_index s index oldKey newKey t :
  invariants s →
  keyFor index s = (Ok oldKey, s) → at_index index s = (Ok t, s) →
  exists_ newKey s = (Ok false, s) →
  ∃ s', changeKey_index T_default index newKey s = (Ok (), s') ∧
        changeKey T_default oldKey newKey s = (Ok (), s') ∧
        invariants s' ∧
        keyFor index s' = (Ok newKey, s') ∧
        at_index index s' = (Ok t, s') ∧
        exists_ oldKey s' = (Ok false, s') ∧
        length (_vector s') = length (_vector s).
Proof.
  intros Hinv Hk Ht Hnew%exists_false.
  destruct (entry_inv _ _ _ _ Hinv Hk Ht) as (j & -> & Hj & Hm).
  assert (oldKey ≠ newKey) as Hne by congruence.
  pose proof (lookup_lt_Some _ _ _ Hj) as Hlt.
  set (s' := renamed oldKey newKey (t, Z.of_nat j) s).
  assert (changeKey T_default oldKey newKey s = (Ok (), s')) as Hc.
  { apply changeKey_present; [done|]. by eapply in_range_of_nat. }
  assert (_vector s' !! j = Some newKey) as Hj'.
  { unfold s', renamed. cbn [_vector snd]. rewrite Nat2Z.id.
    by apply list_lookup_insert_eq. }
  assert (_map s' !! newKey = Some (t, Z.of_nat j)) as Hm'
    by (simpl; apply lookup_insert_eq).
  exists s'. split; [|split; [done|split; [|split; [|split; [|split]]]]].
  - unfold changeKey_index. unfold_M.
    rewrite validateIndex_inside by (by eapply in_range_of_nat).
    by rewrite (keyFor_of_nat _ _ _ Hj).
  - by apply renamed_invariants.
  - by apply keyFor_of_nat.
  - by eapply at_index_of_nat.
  - apply exists_false. simpl.
    by rewrite lookup_insert_ne, lookup_delete_eq.
  - unfold s', renamed. cbn [_vector]. by rewrite length_insert.
Qed.

(** ** [updateMapIndices] *)

Lemma updateMapIndices_from_id s :
  invariants s →
  updateMapIndices_from T_default 0 (_vector s) (_map s) = _map s.
Proof.
  intros Hinv. apply map_eq. intros k.
  destruct (decide (k ∈ _vector s)) as [Hin|Hout].
  - apply list_elem_of_lookup_1 in Hin as [j Hj].
    rewrite (updateMapIndices_from_in _ _ _ j) by
      (try done; apply (I4 _ Hinv)).
    destruct (I2 _ Hinv _ _ Hj) as [t Ht]. rewrite Ht. simpl.
    by rewrite Z.add_0_l.
  - by apply updateMapIndices_from_notin.
Qed.



(** ** Insertion undone by erasure *)

(** X12: [push_back] of a key that is not held followed by [erase] of that
    key, or of the last position, restores the container exactly (for a
    container that satisfies the invariants and holds at most [INT_MAX]
    entries). *)
Theorem X12_push_back_then_erase s key t :
  invariants s → fits_int s → exists_ key s = (Ok false, s) →
  ∃ s', push_back key t s = (Ok t, s') ∧
        erase_key T_default key s' = (Ok (), s) ∧
        erase_index T_default (Z.of_nat (length (_vector s))) s' = (Ok (), s).
Proof.
  intros Hinv Hfit Hnone%exists_false. exists (pushed key t s).
  pose proof (pushed_invariants key t s Hinv Hfit Hnone) as Hinv'.
  assert (_vector (pushed key t s) !! length (_vector s) = Some key) as Hlast
    by (simpl; by apply list_lookup_middle).
  assert (erased T_default (length (_vector s)) key (pushed key t s) = s)
    as Herased.
  { unfold erased, pushed. cbn [_map _vector].
    rewrite delete_middle, app_nil_r, delete_insert_eq, delete_id by done.
    rewrite updateMapIndices_from_id by done. by destruct s. }
  split; [|split].
  - apply push_back_fresh; [done|]. symmetry. apply (I1 _ Hinv).
  - by rewrite (erase_key_live _ _ _ Hinv' Hlast), Herased.
  - by rewrite (erase_index_live _ _ _ Hinv' Hlast), Herased.
Qed.

(** ** [fastErase] with a key that is not the one at the index *)

(** X13: on a container that satisfies the invariants, [fastErase(index,
    key)] with a valid index and a [key] other than the key at that index
    returns, but leaves [_map] with one entry more than [_vector]: the key
    that was at [index] is gone from [_vector] and still in [_map], the
    invariants are broken and the next [size()] throws. *)
Theorem X13_fastErase_with_another_key s index key0 key :
  invariants s → keyFor index s = (Ok key0, s) → key ≠ key0 →
  ∃ s', fastErase T_default index key s = (Ok (), s') ∧
        base.size (_map s') = S (length (_vector s')) ∧
        key0 ∉ _vector s' ∧ exists_ key0 s' = (Ok true, s') ∧
        ¬ invariants s' ∧
        size s' = (Throw size_mismatch, s').
Proof.
  intros Hinv (_ & Hi & Hv)%keyFor_Ok_inv Hne.
  pose proof (lookup_lt_Some _ _ _ Hv) as Hlt.
  set (p := Z.to_nat index) in *.
  exists (erased T_default p key s).
  assert (base.size (_map (erased T_default p key s))
          = S (length (_vector (erased T_default p key s)))) as Hsz.
  { simpl. rewrite <- size_dom, updateMapIndices_from_dom.
    rewrite (list_to_set_delete _ _ _ Hinv Hv), !dom_delete_L.
    replace (dom (_map s) ∖ {[key]} ∪ dom (_map s) ∖ {[key0]})
      with (dom (_map s)).
    - rewrite size_dom, length_delete, <- (I1 _ Hinv) by eauto. lia.
    - apply set_eq. intros k. rewrite elem_of_union, !elem_of_difference,
        !elem_of_singleton.
      destruct (decide (k = key)); naive_solver. }
  split; [|split; [done|split; [|split; [|split]]]].
  - apply fastErase_in_range, in_range_true. lia.
  - apply NoDup_delete_notin; [apply (I4 _ Hinv)|done].
  - apply exists_true. simpl. apply updateMapIndices_from_keeps.
    rewrite lookup_delete_ne by done.
    apply (I4 _ Hinv). by eapply list_elem_of_lookup_2.
  - intros Hinv'. pose proof (I1 _ Hinv'). lia.
  - apply size_inconsistent. lia.
Qed.

(** ** What a single call can do to a valid container *)

(** X14: on a container that satisfies the invariants and holds at most
    [INT_MAX] entries, every checked call either returns or throws
    [invalid_argument] and leaves the container as it was; it never throws
    the [runtime_error] of [size()] or the [out_of_range] of the standard
    containers, and never runs into undefined behaviour. The state in which
    it returns satisfies the invariants, unless the call renames an entry
    to another key that is already held. *)
Theorem X14_calls_on_a_valid_container c s :
  invariants s → fits_int s →
  (∃ s', run T_default c s = (Returned, s') ∧
         (¬ renames_onto_held c s → invariants s')) ∨
  (∃ what, run T_default c s = (Thrown (invalid_argument what), s)).
Proof.
  intros Hinv Hfit.
  assert (∀ index, in_range index (_vector s) = true →
            ∃ (j : nat) key t, index = Z.of_nat j ∧ _vector s !! j = Some key ∧
                               _map s !! key = Some (t, Z.of_nat j)) as Hlive.
  { intros index [Hi Hlt]%in_range_true.
    destruct (lookup_lt_is_Some_2 (_vector s) (Z.to_nat index)) as [key Hj];
      [lia|].
    destruct (I2 _ Hinv _ _ Hj) as [t Ht].
    exists (Z.to_nat index), key, t. split; [lia|done]. }
  assert (∀ index msg, in_range index (_vector s) = false →
            validateIndex index msg s = (Throw (index_doesnt_exist msg), s))
    as Hout.
  { intros index msg Hr%in_range_false. by apply validateIndex_outside. }
  assert (∀ oldKey newKey tp, _map s !! oldKey = Some tp →
            changeKey T_default oldKey newKey s
              = (Ok (), renamed oldKey newKey tp s) ∧
            (¬ (oldKey ≠ newKey ∧ is_Some (_map s !! newKey)) →
             invariants (renamed oldKey newKey tp s))) as Hrename.
  { intros oldKey newKey [t q] Hold. split.
    - apply changeKey_present; [done|]. by eapply invariants_in_range.
    - intros Hc. destruct (decide (oldKey = newKey)) as [<-|Hne].
      + by rewrite renamed_same.
      + apply renamed_invariants; [done..|].
        apply eq_None_not_Some. naive_solver. }
  destruct c as [|key t|index|key|index|key|key|index newKey|oldKey newKey
                 |index|key|]; unfold run.
  - left. exists s. split; [|done].
    by rewrite size_consistent by (symmetry; apply (I1 _ Hinv)).
  - destruct (_map s !! key) as [tp|] eqn:Hk.
    + right. eexists. by rewrite push_back_held by (rewrite Hk; eauto).
    + left. exists (pushed key t s). split.
      * by rewrite push_back_fresh by (try done; symmetry; apply (I1 _ Hinv)).
      * intros _. by apply pushed_invariants.
  - destruct (in_range index (_vector s)) eqn:Hr.
    + left. destruct (Hlive _ Hr) as (j & key & t & -> & Hj & Ht).
      exists s. split; [|done]. by erewrite at_index_of_nat.
    + right. eexists. unfold at_index. unfold_M. by rewrite Hout.
  - destruct (_map s !! key) as [[t q]|] eqn:Hk.
    + left. exists s. split; [|done]. by erewrite at_key_present.
    + right. eexists. unfold at_key. unfold_M.
      by rewrite validateKey_absent.
  - destruct (in_range index (_vector s)) eqn:Hr.
    + left. destruct (Hlive _ Hr) as (j & key & t & -> & Hj & Ht).
      exists s. split; [|done]. by erewrite keyFor_of_nat.
    + right. eexists. unfold keyFor. unfold_M. by rewrite Hout.
  - destruct (_map s !! key) as [[t q]|] eqn:Hk.
    + left. exists s. split; [|done]. by erewrite indexFor_present.
    + right. eexists. unfold indexFor. unfold_M.
      by rewrite validateKey_absent.
  - left. exists s. split; [|done]. by rewrite exists_spec.
  - destruct (in_range index (_vector s)) eqn:Hr.
    + left. destruct (Hlive _ Hr) as (j & oldKey & t & -> & Hj & Ht).
      destruct (Hrename oldKey newKey _ Ht) as [Hs' Hinv'].
      eexists. split.
      * unfold changeKey_index. unfold_M.
        rewrite validateIndex_inside by done.
        by rewrite (keyFor_of_nat _ _ _ Hj), Hs'.
      * intros Hc. apply Hinv'. intros [Hne Hnew]. apply Hc.
        exists oldKey. by rewrite Nat2Z.id.
    + right. eexists. unfold changeKey_index. unfold_M. by rewrite Hout.
  - destruct (_map s !! oldKey) as [tp|] eqn:Hk.
    + left. destruct (Hrename oldKey newKey _ Hk) as [Hs' Hinv'].
      eexists. split; [by rewrite Hs'|].
      intros Hc. apply Hinv'. intros [Hne Hnew]. apply Hc. simpl.
      rewrite Hk. eauto.
    + right. eexists. unfold changeKey. unfold_M.
      by rewrite validateKey_absent.
  - destruct (in_range index (_vector s)) eqn:Hr.
    + left. destruct (Hlive _ Hr) as (j & key & t & -> & Hj & Ht).
      exists (erased T_default j key s). split.
      * by rewrite (erase_index_live _ _ key).
      * intros _. by apply erased_invariants.
    + right. eexists. unfold erase_index. unfold_M. by rewrite Hout.
  - destruct (_map s !! key) as [[t q]|] eqn:Hk.
    + left. destruct (I3_nat _ _ _ _ Hinv Hk) as (j & -> & Hj).
      exists (erased T_default j key s). split.
      * by rewrite (erase_key_live _ j).
      * intros _. by apply erased_invariants.
    + right. eexists. unfold erase_key. unfold_M.
      by rewrite validateKey_absent.
  - left. exists empty_map. split; [done|]. intros _. apply empty_map_invariants.
Qed.

(** ** Calls that throw after they have changed the container *)

(** X15: [changeKey] is not atomic on a container whose recorded position
    of [oldKey] is not a position of [_vector] (a state that a misused
    [fastErase] leaves): [_vector.at] throws [out_of_range] after [_map]
    has been changed, so [oldKey] is gone and [newKey] is held, with
    [_vector] as it was. *)
Theorem X15_changeKey_throws_after_renaming_in_map s oldKey newKey tp :
  _map s !! oldKey = Some tp → in_range tp.2 (_vector s) = false →
  oldKey ≠ newKey →
  ∃ s', changeKey T_default oldKey newKey s = (Throw out_of_range, s') ∧
        _vector s' = _vector s ∧
        exists_ oldKey s' = (Ok false, s') ∧
        at_key newKey s' = (Ok tp.1, s') ∧
        indexFor newKey s' = (Ok tp.2, s').
Proof.
  intros Hk Hr Hne.
  exists {| _map := <[newKey := tp]> (delete oldKey (_map s));
            _vector := _vector s |}.
  split; [|split; [done|split; [|split]]].
  - unfold changeKey. unfold_M.
    rewrite validateKey_present by (rewrite Hk; eauto).
    unfold map_subscript. unfold_M. rewrite Hk.
    unfold vector_at_assign. unfold_M. simpl. by rewrite Hr.
  - apply exists_false. simpl.
    by rewrite lookup_insert_ne, lookup_delete_eq.
  - destruct tp as [t q]. eapply at_key_present. simpl. apply lookup_insert_eq.
  - destruct tp as [t q]. eapply indexFor_present. simpl. apply lookup_insert_eq.
Qed.

(** X16: [push_back] checks [size()] after it has inserted: on a container
    whose [_map] and [_vector] differ in size, [push_back] of a key that is
    not held throws the [runtime_error] of [size()], and the key has been
    inserted into both structures all the same. *)
Theorem X16_push_back_throws_after_inserting s key t :
  exists_ key s = (Ok false, s) →
  base.size (_map s) ≠ length (_vector s) →
  ∃ s', push_back key t s = (Throw size_mismatch, s') ∧
        _vector s' = _vector s ++ [key] ∧
        exists_ key s' = (Ok true, s') ∧
        at_key key s' = (Ok t, s').
Proof.
  intros Hk%exists_false Hsz. exists (pushed key t s).
  split; [|split; [done|split]].
  - by apply push_back_fresh_inconsistent.
  - apply exists_true. simpl. rewrite lookup_insert_eq. eauto.
  - eapply at_key_present. simpl. apply lookup_insert_eq.
Qed.

(** ** Two erasures *)

Lemma filter_ne_notin v key :
  key ∉ v → filter (λ k, k ≠ key) v = v.
Proof.
  induction v as [|x v IH]; [done|].
  intros [Hne Hv]%not_elem_of_cons.
  rewrite filter_cons_True by congruence. by rewrite IH.
Qed.

Lemma delete_as_filter v (p : nat) key :
  NoDup v → v !! p = Some key → delete p v = filter (λ k, k ≠ key) v.
Proof.
  revert p. induction v as [|x v IH]; intros p Hnd Hp; [done|].
  apply NoDup_cons in Hnd as [Hx Hnd]. destruct p as [|p]; simpl in *.
  - injection Hp as ->. rewrite filter_cons_False by naive_solver.
    by rewrite filter_ne_notin.
  - rewrite filter_cons_True.
    + by rewrite (IH p).
    + intros ->. apply Hx. by eapply list_elem_of_lookup_2.
Qed.

Lemma erased_value s (p : nat) key k :
  invariants s → _vector s !! p = Some key →
  fst <$> _map (erased T_default p key s) !! k =
  if decide (k = key) then None else fst <$> _map s !! k.
Proof.
  intros Hinv Hp. case_decide as Hk.
  - subst k. by rewrite erased_lookup_key.
  - destruct (_map s !! k) as [[t q]|] eqn:Hm.
    + by erewrite erased_lookup_other.
    + destruct (_map (erased T_default p key s) !! k) as [[t q']|] eqn:Hm';
        [|done].
      destruct (erased_lookup_inv _ _ _ _ _ _ Hinv Hp Hm') as (_ & q & Hq & _).
      congruence.
Qed.

(** Under the invariants, [_vector] and the values determine the state. *)
Lemma invariants_ext s1 s2 :
  invariants s1 → invariants s2 → _vector s1 = _vector s2 →
  (∀ k, fst <$> _map s1 !! k = fst <$> _map s2 !! k) →
  s1 = s2.
Proof.
  intros Hinv1 Hinv2 Hv Hval. destruct s1 as [mp1 v1], s2 as [mp2 v2].
  simpl in *. subst v2. f_equal. apply map_eq. intros k.
  specialize (Hval k).
  destruct (mp1 !! k) as [[t1 q1]|] eqn:H1, (mp2 !! k) as [[t2 q2]|] eqn:H2;
    simplify_eq/=; [|done].
  destruct (I3_nat _ _ _ _ Hinv1 H1) as (j1 & -> & Hj1).
  destruct (I3_nat _ _ _ _ Hinv2 H2) as (j2 & -> & Hj2).
  simpl in *.
  by rewrite (NoDup_lookup _ _ _ _ (proj1 (I4 _ Hinv1)) Hj1 Hj2).
Qed.

Lemma erase_key_held s key :
  invariants s → is_Some (_map s !! key) →
  ∃ p : nat, _vector s !! p = Some key ∧
    erase_key T_default key s = (Ok (), erased T_default p key s).
Proof.
  intros Hinv [[t q] Hk]. destruct (I3_nat _ _ _ _ Hinv Hk) as (p & -> & Hp).
  exists p. split; [done|]. by apply erase_key_live.
Qed.

(** X17: on a container that satisfies the invariants, erasing two
    distinct held keys gives the same container in either order, and the
    remaining keys are those of [_vector] in their order. *)
Theorem X17_erasures_commute s key1 key2 :
  invariants s → key1 ≠ key2 →
  exists_ key1 s = (Ok true, s) → exists_ key2 s = (Ok true, s) →
  ∃ s1 s2 s',
    erase_key T_default key1 s = (Ok (), s1) ∧
    erase_key T_default key2 s1 = (Ok (), s') ∧
    erase_key T_default key2 s = (Ok (), s2) ∧
    erase_key T_default key1 s2 = (Ok (), s') ∧
    invariants s' ∧
    _vector s' = filter (λ k, k ≠ key1 ∧ k ≠ key2) (_vector s).
Proof.
  intros Hinv Hne Hk1%exists_true Hk2%exists_true.
  assert (∀ a b, a ≠ b → is_Some (_map s !! a) → is_Some (_map s !! b) →
    ∃ s1 s', erase_key T_default a s = (Ok (), s1) ∧
          erase_key T_default b s1 = (Ok (), s') ∧
          invariants s' ∧
          _vector s' = filter (λ k, k ≠ b) (filter (λ k, k ≠ a) (_vector s)) ∧
          ∀ k, fst <$> _map s' !! k =
               if decide (k = b) then None
               else if decide (k = a) then None else fst <$> _map s !! k)
    as Htwo.
  { intros a b Hab Ha Hb.
    destruct (erase_key_held s a Hinv Ha) as (p & Hp & Hea).
    pose proof (erased_invariants _ _ _ Hinv Hp) as Hinv1.
    assert (is_Some (_map (erased T_default p a s) !! b)) as Hb1.
    { destruct Hb as [[t q] Hb].
      erewrite erased_lookup_other by (done || congruence). eauto. }
    destruct (erase_key_held _ b Hinv1 Hb1) as (p' & Hp' & Heb).
    eexists _, _. split; [exact Hea|]. split; [exact Heb|]. split; [|split].
    - by apply erased_invariants.
    - cbn [erased _vector].
      rewrite <- (delete_as_filter _ p a) by (try done; apply (I4 _ Hinv)).
      apply delete_as_filter; [apply (I4 _ Hinv1)|done].
    - intros k. rewrite (erased_value _ p' b k Hinv1 Hp').
      case_decide; [done|]. by apply erased_value. }
  destruct (Htwo key1 key2) as (s1 & s12 & H1 & H12 & Hinv12 & Hv12 & Hval12);
    [done..|].
  destruct (Htwo key2 key1) as (s2 & s21 & H2 & H21 & Hinv21 & Hv21 & Hval21);
    [done..|].
  rewrite !list_filter_filter in Hv12, Hv21.
  assert (s21 = s12) as ->.
  { apply invariants_ext; [done..| |].
    - rewrite Hv12, Hv21. apply list_filter_iff. naive_solver.
    - intros k. rewrite Hval12, Hval21. repeat case_decide; done. }
  exists s1, s2, s12. repeat (split; [done|]).
  rewrite Hv12. apply list_filter_iff. naive_solver.
Qed.

End OrderedMap_facts.

(** * The example application, run on the model *)

Lemma people_invariants : invariants people.
Proof. apply check_invariants_sound. vm_compute. reflexivity. Qed.

(** The run of [tester()]: the four insertions, [erase(1)], [erase("bruce")],
    [changeKey(0, "mehmet")] and [changeKey("pearl", "pearlikens")]. *)
Example tester_trace :
  _vector people = ["memo"; "jane"; "pearl"; "bruce"] ∧
  indexFor "pearl" people = (Ok 2%Z, people) ∧
  _vector (run_all 0%Z [EraseIndex 1%Z] people) = ["memo"; "pearl"; "bruce"] ∧
  (indexFor "bruce" (run_all 0%Z [EraseIndex 1%Z] people)).1 = Ok 2%Z ∧
  _vector (run_all 0%Z [EraseIndex 1%Z; EraseKey "bruce"] people)
    = ["memo"; "pearl"] ∧
  let s := run_all 0%Z [EraseIndex 1%Z; EraseKey "bruce";
                        ChangeKeyIndex 0%Z "mehmet";
                        ChangeKey "pearl" "pearlikens"] people in
  _vector s = ["mehmet"; "pearlikens"] ∧
  at_index 0%Z s = (Ok 37%Z, s) ∧ at_index 1%Z s = (Ok 2%Z, s) ∧
  check_invariants s = true.
Proof. vm_compute. repeat split; reflexivity. Qed.

Lemma C8_size_self_check_witness :
  size people = (Ok 4%Z, people) ∧
  size people_clash = (Throw size_mismatch, people_clash).
Proof.
  split.
  - apply (proj1 (C8_size_self_check people)).
    + vm_compute. reflexivity.
    + vm_compute. discriminate.
  - apply (proj2 (C8_size_self_check people_clash)).
    vm_compute. discriminate.
Defined.

Lemma C4_push_back_duplicate_witness :
  push_back "jane" 72%Z people = (Throw key_already_exists, people).
Proof.
  apply (C4_push_back_duplicate people "jane" 72%Z).
  vm_compute. reflexivity.
Defined.

Lemma C6_rejected_calls_do_not_mutate_witness :
  keyFor 4%Z people =
    (Throw (index_doesnt_exist "msa::OrderedMap::keyFor(int)"), people) ∧
  erase_index 0%Z (-1)%Z people =
    (Throw (index_doesnt_exist "msa::OrderedMap::erase(int)"), people) ∧
  at_key "blufo" people =
    (Throw (key_doesnt_exist "msa::OrderedMap::at(keyType)"), people) ∧
  erase_key 0%Z "blufo" people =
    (Throw (key_doesnt_exist "msa::OrderedMap::erase(keyType)"), people).
Proof.
  destruct (C6_rejected_calls_do_not_mutate 0%Z people) as [Hindex Hkey].
  split; [|split; [|split]].
  - apply (Hindex 4%Z). vm_compute. intros [_ Hlt]. discriminate.
  - apply (Hindex (-1)%Z). vm_compute. intros [Hle _]. by apply Hle.
  - apply (Hkey "blufo"). vm_compute. reflexivity.
  - apply (Hkey "blufo"). vm_compute. reflexivity.
Defined.

Lemma C9_erase_overloads_agree_witness :
  ∃ s', fastErase 0%Z 1%Z "jane" people = (Ok (), s') ∧
        erase_index 0%Z 1%Z people = (Ok (), s') ∧
        erase_key 0%Z "jane" people = (Ok (), s').
Proof.
  apply (C9_erase_overloads_agree 0%Z people 1%Z "jane").
  - apply check_invariants_sound. vm_compute. reflexivity.
  - vm_compute. reflexivity.
Defined.

Lemma C3_changeKey_keeps_value_and_position_witness :
  ∃ s', changeKey 0%Z "pearl" "pearlikens" people = (Ok (), s') ∧
        at_key "pearlikens" s' = (Ok 2%Z, s') ∧
        indexFor "pearlikens" s' = (Ok 2%Z, s').
Proof.
  destruct (C3_changeKey_keeps_value_and_position 0%Z people
              "pearl" "pearlikens" 2%Z 2%Z) as (s' & Hc & Hat & Hix & _).
  - apply check_invariants_sound. vm_compute. reflexivity.
  - vm_compute. reflexivity.
  - vm_compute. reflexivity.
  - exists s'. split; [exact Hc|]. split; [exact Hat|exact Hix].
Defined.

Lemma C2_erase_shifts_later_entries_witness :
  ∃ s', erase_index 0%Z 1%Z people = (Ok (), s') ∧
        erase_key 0%Z "jane" people = (Ok (), s') ∧
        exists_ "jane" s' = (Ok false, s') ∧
        keyFor 0%Z s' = (Ok "memo", s') ∧ at_index 0%Z s' = (Ok 37%Z, s') ∧
        keyFor 1%Z s' = (Ok "pearl", s') ∧ at_index 1%Z s' = (Ok 2%Z, s') ∧
        indexFor "bruce" s' = (Ok 2%Z, s') ∧
        size s' = (Ok 3%Z, s').
Proof.
  destruct (C2_erase_shifts_later_entries 0%Z people 1%Z "jane")
    as (s' & Hi & Hk & Hex & _ & Hlater & Hearlier & _ & Hsizes).
  - apply check_invariants_sound. vm_compute. reflexivity.
  - vm_compute. reflexivity.
  - exists s'.
    destruct Hsizes as [_ Hsize]; [vm_compute; discriminate|].
    destruct (Hearlier 0%Z "memo" 37%Z) as (Hk0 & Ht0 & _);
      [lia|vm_compute; reflexivity..|].
    destruct (Hlater 2%Z "pearl" 2%Z) as (Hk1 & Ht1 & _);
      [lia|vm_compute; reflexivity..|].
    destruct (Hlater 3%Z "bruce" 3%Z) as (_ & _ & _ & Hi2);
      [lia|vm_compute; reflexivity..|].
    by repeat (split; [assumption|]).
Defined.

Lemma C5_insertions_with_distinct_keys_witness :
  ∃ s, push_back_all
         [("memo", 37%Z); ("jane", 27%Z); ("pearl", 2%Z); ("bruce", 3%Z)]
         empty_map = (Ok (), s) ∧
       size s = (Ok 4%Z, s) ∧
       ∀ k, k ∈ ["memo"; "jane"; "pearl"; "bruce"] →
         ∃ index, indexFor k s = (Ok index, s) ∧ keyFor index s = (Ok k, s).
Proof.
  apply (C5_insertions_with_distinct_keys
           [("memo", 37%Z); ("jane", 27%Z); ("pearl", 2%Z); ("bruce", 3%Z)]).
  - apply (bool_decide_unpack _). vm_compute. exact I.
  - vm_compute. discriminate.
Defined.





(** C1 fails on the code: [changeKey("memo", "jane")] on the four people,
    a state that satisfies I1-I4, returns without an error and leaves a
    state in which [_map] has 3 entries and [_vector] 4, so I1 is broken
    (and "jane" labels positions 0 and 1, so I4 is broken). *)
Theorem C1_changeKey_onto_held_key_breaks_invariants :
  invariants people ∧
  changeKey 0%Z "memo" "jane" people = (Ok (), people_clash) ∧
  _vector people_clash = ["jane"; "jane"; "pearl"; "bruce"] ∧
  base.size (_map people_clash) = 3 ∧
  ¬ invariants people_clash.
Proof.
  split; [apply people_invariants|].
  split; [vm_compute; reflexivity|].
  split; [vm_compute; reflexivity|].
  split; [vm_compute; reflexivity|].
  intros [H1 _ _ _]. vm_compute in H1. discriminate.
Qed.

(** * The further properties on the example *)

Lemma X1_push_back_appends_witness :
  ∃ s', push_back "blufo" 5%Z people = (Ok 5%Z, s') ∧ invariants s' ∧
        keyFor 4%Z s' = (Ok "blufo", s') ∧ at_index 4%Z s' = (Ok 5%Z, s') ∧
        indexFor "pearl" s' = (Ok 2%Z, s').
Proof.
  destruct (X1_push_back_appends people "blufo" 5%Z)
    as (s' & Hp & Hinv & _ & Hk & Ht & _ & _ & Hold).
  - apply check_invariants_sound. vm_compute. reflexivity.
  - vm_compute. discriminate.
  - vm_compute. reflexivity.
  - exists s'. destruct (Hold 2%Z "pearl" 2%Z) as (_ & _ & _ & Hi);
      [vm_compute; reflexivity..|].
    by repeat (split; [assumption|]).
Defined.

Lemma X2_insertion_order_is_kept_witness :
  ∃ s, push_back_all
         [("memo", 37%Z); ("jane", 27%Z); ("pearl", 2%Z); ("bruce", 3%Z)]
         empty_map = (Ok (), s) ∧
       invariants s ∧ _vector s = ["memo"; "jane"; "pearl"; "bruce"] ∧
       keyFor 2%Z s = (Ok "pearl", s) ∧ at_index 2%Z s = (Ok 2%Z, s).
Proof.
  destruct (X2_insertion_order_is_kept
              [("memo", 37%Z); ("jane", 27%Z); ("pearl", 2%Z); ("bruce", 3%Z)])
    as (s & Hrun & Hinv & Hv & Hat).
  - apply (bool_decide_unpack _). vm_compute. exact I.
  - vm_compute. discriminate.
  - exists s. destruct (Hat 2 "pearl" 2%Z) as (Hk & Ht & _); [reflexivity|].
    by repeat (split; [assumption|]).
Defined.

Lemma X3_keyFor_indexFor_inverse_witness :
  indexFor "pearl" people = (Ok 2%Z, people) ∧
  keyFor 3%Z people = (Ok "bruce", people).
Proof.
  split.
  - apply (X3_keyFor_indexFor_inverse people 2%Z "pearl").
    + apply check_invariants_sound. vm_compute. reflexivity.
    + vm_compute. reflexivity.
  - apply (X3_keyFor_indexFor_inverse people 3%Z "bruce").
    + apply check_invariants_sound. vm_compute. reflexivity.
    + vm_compute. reflexivity.
Defined.

Lemma X5_valid_positions_are_readable_witness :
  ∃ key t, keyFor 3%Z people = (Ok key, people) ∧
           at_index 3%Z people = (Ok t, people) ∧
           at_key key people = (Ok t, people).
Proof.
  apply (X5_valid_positions_are_readable people 3%Z).
  - apply check_invariants_sound. vm_compute. reflexivity.
  - vm_compute. split; [discriminate|reflexivity].
Defined.

Lemma X7_changeKey_to_same_key_witness :
  changeKey 0%Z "jane" "jane" people = (Ok (), people).
Proof.
  apply (X7_changeKey_to_same_key 0%Z people "jane").
  - apply check_invariants_sound. vm_compute. reflexivity.
  - vm_compute. reflexivity.
Defined.

Lemma X8_changeKey_there_and_back_witness :
  ∃ s', changeKey 0%Z "memo" "mehmet" people = (Ok (), s') ∧ invariants s' ∧
        changeKey 0%Z "mehmet" "memo" s' = (Ok (), people).
Proof.
  apply (X8_changeKey_there_and_back 0%Z people "memo" "mehmet").
  - apply check_invariants_sound. vm_compute. reflexivity.
  - vm_compute. reflexivity.
  - vm_compute. reflexivity.
Defined.

Lemma X9_changeKey_by_index_witness :
  ∃ s', changeKey_index 0%Z 0%Z "mehmet" people = (Ok (), s') ∧
        changeKey 0%Z "memo" "mehmet" people = (Ok (), s') ∧
        keyFor 0%Z s' = (Ok "mehmet", s') ∧ at_index 0%Z s' = (Ok 37%Z, s').
Proof.
  destruct (X9_changeKey_by_index 0%Z people 0%Z "memo" "mehmet" 37%Z)
    as (s' & Hci & Hck & _ & Hk & Ht & _).
  - apply check_invariants_sound. vm_compute. reflexivity.
  - vm_compute. reflexivity.
  - vm_compute. reflexivity.
  - vm_compute. reflexivity.
  - exists s'. by repeat (split; [assumption|]).
Defined.



Lemma X12_push_back_then_erase_witness :
  ∃ s', push_back "blufo" 5%Z people = (Ok 5%Z, s') ∧
        erase_key 0%Z "blufo" s' = (Ok (), people) ∧
        erase_index 0%Z 4%Z s' = (Ok (), people).
Proof.
  apply (X12_push_back_then_erase 0%Z people "blufo" 5%Z).
  - apply check_invariants_sound. vm_compute. reflexivity.
  - vm_compute. discriminate.
  - vm_compute. reflexivity.
Defined.

Lemma X13_fastErase_with_another_key_witness :
  ∃ s', fastErase 0%Z 1%Z "memo" people = (Ok (), s') ∧
        base.size (_map s') = S (length (_vector s')) ∧
        size s' = (Throw size_mismatch, s').
Proof.
  destruct (X13_fastErase_with_another_key 0%Z people 1%Z "jane" "memo")
    as (s' & Hf & Hsz & _ & _ & _ & Hsize).
  - apply check_invariants_sound. vm_compute. reflexivity.
  - vm_compute. reflexivity.
  - discriminate.
  - exists s'. by repeat (split; [assumption|]).
Defined.

Lemma X14_calls_on_a_valid_container_witness :
  (∃ s', run 0%Z (ChangeKey "memo" "jane") people = (Returned, s') ∧
         (¬ renames_onto_held (ChangeKey "memo" "jane") people →
          invariants s')) ∨
  (∃ what, run 0%Z (ChangeKey "memo" "jane") people
           = (Thrown (invalid_argument what), people)).
Proof.
  apply (X14_calls_on_a_valid_container 0%Z (ChangeKey "memo" "jane") people).
  - apply check_invariants_sound. vm_compute. reflexivity.
  - vm_compute. discriminate.
Defined.

Lemma X15_changeKey_throws_after_renaming_in_map_witness :
  ∃ s', changeKey 0%Z "bruce" "wayne" people_stale = (Throw out_of_range, s') ∧
        _vector s' = ["memo"; "jane"; "pearl"] ∧
        exists_ "bruce" s' = (Ok false, s') ∧
        at_key "wayne" s' = (Ok 3%Z, s').
Proof.
  destruct (X15_changeKey_throws_after_renaming_in_map 0%Z people_stale
              "bruce" "wayne" (3%Z, 3%Z)) as (s' & Hc & Hv & Hex & Hat & _).
  - vm_compute. reflexivity.
  - vm_compute. reflexivity.
  - discriminate.
  - exists s'. split; [exact Hc|]. split; [|split; [exact Hex|exact Hat]].
    rewrite Hv. vm_compute. reflexivity.
Defined.

Lemma X16_push_back_throws_after_inserting_witness :
  ∃ s', push_back "blufo" 5%Z people_clash = (Throw size_mismatch, s') ∧
        _vector s' = _vector people_clash ++ ["blufo"] ∧
        exists_ "blufo" s' = (Ok true, s') ∧
        at_key "blufo" s' = (Ok 5%Z, s').
Proof.
  apply (X16_push_back_throws_after_inserting people_clash "blufo" 5%Z).
  - vm_compute. reflexivity.
  - vm_compute. discriminate.
Defined.

Lemma X17_erasures_commute_witness :
  ∃ s1 s2 s',
    erase_key 0%Z "jane" people = (Ok (), s1) ∧
    erase_key 0%Z "bruce" s1 = (Ok (), s') ∧
    erase_key 0%Z "bruce" people = (Ok (), s2) ∧
    erase_key 0%Z "jane" s2 = (Ok (), s') ∧
    invariants s' ∧
    _vector s' = filter (λ k, k ≠ "jane" ∧ k ≠ "bruce") (_vector people).
Proof.
  apply (X17_erasures_commute 0%Z people "jane" "bruce").
  - apply check_invariants_sound. vm_compute. reflexivity.
  - discriminate.
  - vm_compute. reflexivity.
  - vm_compute. reflexivity.
Defined.
